(** * Data-pipeline dependency mapper: a shallow embedding of [main.py]

    The development follows the source file function by function.  Python
    strings are modelled as [string]: a character is one of the 256 values
    of [ascii] and stands for the code point of that number, so that the
    strings are the texts whose code points are below 256.  The character
    tests ([str.isspace], the classes [\s] and [\w], the case folding of
    [re.IGNORECASE]) are Python's on every one of these code points.
    Dictionaries are modelled as [gmap], the set built by the join as a
    [gset], a value that may be [None] as an [option], and the file system
    the scanners walk as an explicit environment record. *)

From Stdlib Require Import Ascii String List.
From stdpp Require Import base option list gmap strings sorting.

Local Open Scope string_scope.
Local Open Scope list_scope.

(** * The program *)

(** ** Python values and helpers *)

(** Truth value of an entry of a path list: [None] and the empty string are
    falsy, every other string is truthy. *)
Definition py_truthy (o : option string) : bool :=
  match o with
  | Some s => negb (String.eqb s "")
  | None => false
  end.

(** The builtin [any] over a list of such entries. *)
Definition py_any (l : list (option string)) : bool := existsb py_truthy l.

(** [p for p in l if p is not None]. *)
Definition not_none (l : list (option string)) : list string := omap id l.

(** ** [get_paths] (main.py, line 218) *)

Definition get_paths (source_dict : gmap string (list (option string)))
    (key : string) (default_value : list (option string))
  : list (option string) :=
  default default_value (source_dict !! key).

(** ** The join of [write_to_csv] (main.py, lines 225-259)

    [rows_to_write] is threaded through the four nested loops as an
    accumulator; every [append] becomes [rows ++ [row]] and every [continue]
    ends the corresponding loop body. *)

Section Join.
(** Iteration order of a Python set: the join is stated for an arbitrary
    enumeration of the set. *)
Variable set_iter : gset string → list string.

Variables sql_paths py_paths py_table_paths yaml_paths
  : gmap string (list (option string)).

(** Body of [for yaml_path in associated_yaml_paths]. *)
Definition join_yaml (external_table_name sql_path py_path : string)
    (rows : list (list string)) (yaml_path : option string)
  : list (list string) :=
  match yaml_path with
  | Some y => rows ++ [[external_table_name; sql_path; py_path; y]]
  | None => rows ++ [[external_table_name; sql_path; py_path; ""]]
  end.

(** Body of [for py_path in all_py_paths]. *)
Definition join_py (external_table_name sql_path : string)
    (rows : list (list string)) (py_path : string) : list (list string) :=
  let associated_yaml_paths := get_paths yaml_paths py_path [None] in
  if negb (py_any associated_yaml_paths)
  then rows ++ [[external_table_name; sql_path; py_path; ""]]
  else fold_left (join_yaml external_table_name sql_path py_path)
         associated_yaml_paths rows.

(** The set [all_py_paths] of one (table, sql path) pair. *)
Definition all_py_paths (external_table_name sql_path : string)
  : gset string :=
  let py_paths_from_sql := get_paths py_paths sql_path [] in
  let py_paths_from_table :=
    get_paths py_table_paths external_table_name [] in
  list_to_set (not_none (py_paths_from_sql ++ py_paths_from_table)).

(** Body of [for sql_path in associated_sql_paths]. *)
Definition join_sql (external_table_name : string)
    (rows : list (list string)) (sql_path : option string)
  : list (list string) :=
  match sql_path with
  | None => rows ++ [[external_table_name; ""; ""; ""]]
  | Some sp =>
      let paths := all_py_paths external_table_name sp in
      if decide (paths = ∅)
      then rows ++ [[external_table_name; sp; ""; ""]]
      else fold_left (join_py external_table_name sp) (set_iter paths) rows
  end.

(** Body of [for external_table_name in external_table_names]. *)
Definition join_table (rows : list (list string))
    (external_table_name : string) : list (list string) :=
  let associated_sql_paths :=
    get_paths sql_paths external_table_name [None] in
  if negb (py_any associated_sql_paths)
  then rows ++ [[external_table_name; ""; ""; ""]]
  else fold_left (join_sql external_table_name) associated_sql_paths rows.

(** The list [rows_to_write] handed to the CSV writer. *)
Definition write_to_csv_rows (external_table_names : list string)
  : list (list string) :=
  fold_left join_table external_table_names [].

(** *** What each loop body appends *)

Definition yaml_rows (t sp py : string) (ys : list (option string))
  : list (list string) :=
  map (λ y, [t; sp; py; default "" y]) ys.

Definition py_rows (t sp py : string) : list (list string) :=
  join_py t sp [] py.

Definition sql_rows (t : string) (sp : option string)
  : list (list string) :=
  join_sql t [] sp.

Definition table_rows (t : string) : list (list string) :=
  join_table [] t.

End Join.

(** ** Exceptions and the file system *)

Inductive exn : Type := TypeError | KeyError | StopIteration.

(** What a call does: it returns a value or an exception leaves it. *)
Inductive outcome (A : Type) : Type :=
| Returns (a : A)
| Raises (e : exn).
Arguments Returns {A} a.
Arguments Raises {A} e.

#[global] Instance outcome_ret : MRet outcome := λ A a, Returns a.
#[global] Instance outcome_bind : MBind outcome := λ A B k c,
  match c with
  | Returns a => k a
  | Raises e => Raises e
  end.

(** A [for] loop whose body threads the state [S] and may raise. *)
Fixpoint for_each {A S : Type} (l : list A) (body : S → A → outcome S)
    (s : S) : outcome S :=
  match l with
  | [] => Returns s
  | x :: l' => s' ← body s x; for_each l' body s'
  end.

(** The part of the operating system the tool touches. *)
Record Env : Type := {
  (** [os.path.exists] *)
  path_exists : string → bool;
  (** [os.walk(root)]: each directory with the names of its files *)
  walk : string → list (string * list string);
  (** [os.path.join] *)
  path_join : string → string → string;
  (** [open(path, errors='ignore').read()]; [None] on [IOError]/[OSError] *)
  read_text : string → option string;
  (** [open(path).read()] with strict decoding; [None] on any error *)
  read_strict : string → option string;
  (** the rows [csv.reader] yields; [None] on [IOError] *)
  read_csv : string → option (list (list string))
}.

(** ** Characters and strings as Python sees them *)

Definition in_range (lo hi c : ascii) : bool :=
  Ascii.leb lo c && Ascii.leb c hi.

(** [str.isspace] and the class [\s] of a [str] pattern, which is
    Unicode-aware: tab to carriage return (9-13), the separators 28-31, the
    blank, the next-line control (133, U+0085) and the no-break space (160,
    U+00A0). *)
Definition py_isspace (c : ascii) : bool :=
  in_range "009" "013" c || in_range "028" "031" c || Ascii.eqb c " " ||
  Ascii.eqb c "133" || Ascii.eqb c "160".

(** The class [[a-zA-Z_]] of the section-header pattern. *)
Definition is_key_char (c : ascii) : bool :=
  in_range "a" "z" c || in_range "A" "Z" c || Ascii.eqb c "_".

(** The letters and numbers above 127 ([str.isalnum]): the ordinal
    indicators (170, 186), the superscript digits (178, 179, 185), the micro
    sign (181), the fractions (188-190) and the accented letters (192-255
    but for the signs 215 and 247). *)
Definition is_high_alnum (c : ascii) : bool :=
  Ascii.eqb c "170" || in_range "178" "179" c || Ascii.eqb c "181" ||
  in_range "185" "186" c || in_range "188" "190" c ||
  in_range "192" "214" c || in_range "216" "246" c || in_range "248" "255" c.

(** The class [\w] of a [str] pattern, which is Unicode-aware: the
    alphanumeric characters and the underscore. *)
Definition is_word_char (c : ascii) : bool :=
  is_key_char c || in_range "0" "9" c || is_high_alnum c.

(** The class [[\w\.-]] of the email pattern. *)
Definition is_email_char (c : ascii) : bool :=
  is_word_char c || Ascii.eqb c "." || Ascii.eqb c "-".

(** Lower case of one character, as [re.IGNORECASE] compares them: the
    capital letters, plain (65-90) and accented (192-222 but for the sign
    215), are 32 below their small letters. *)
Definition lower (c : ascii) : ascii :=
  if in_range "A" "Z" c || in_range "192" "214" c || in_range "216" "222" c
  then ascii_of_nat (nat_of_ascii c + 32)
  else c.

Fixpoint all_chars (p : ascii → bool) (s : string) : bool :=
  match s with
  | EmptyString => true
  | String c s' => p c && all_chars p s'
  end.

Fixpoint has_char (p : ascii → bool) (s : string) : bool :=
  match s with
  | EmptyString => false
  | String c s' => p c || has_char p s'
  end.

(** [str.strip()]: leading, then trailing, whitespace removed. *)
Fixpoint lstrip (s : string) : string :=
  match s with
  | EmptyString => EmptyString
  | String c s' => if py_isspace c then lstrip s' else s
  end.

Fixpoint rstrip (s : string) : string :=
  match s with
  | EmptyString => EmptyString
  | String c s' =>
      match rstrip s' with
      | EmptyString => if py_isspace c then EmptyString else String c EmptyString
      | r => String c r
      end
  end.

Definition strip (s : string) : string := rstrip (lstrip s).

(** [needle in haystack] on strings. *)
Fixpoint py_in (needle haystack : string) : bool :=
  String.prefix needle haystack ||
  match haystack with
  | EmptyString => false
  | String _ rest => py_in needle rest
  end.

(** [s.endswith(suffix)]. *)
Fixpoint endswith (s suffix : string) : bool :=
  String.eqb s suffix ||
  match s with
  | EmptyString => false
  | String _ rest => endswith rest suffix
  end.

(** ** Regular expressions

    The owner-tag and section-header patterns are transcribed into this
    syntax; matching is by derivatives, so that [re_fullmatch] computes.
    The two [findall] patterns, which need the matched text, are scanners
    of their own further down. *)

Inductive regex : Type :=
| Void
| Eps
| Chr (p : ascii → bool)
| Cat (r1 r2 : regex)
| Alt (r1 r2 : regex)
| Star (r : regex).

Definition Opt (r : regex) : regex := Alt r Eps.
Definition Plus (r : regex) : regex := Cat r (Star r).

(** A literal, compared character by character through [eq]. *)
Fixpoint Lit (eq : ascii → ascii → bool) (s : string) : regex :=
  match s with
  | EmptyString => Eps
  | String c s' => Cat (Chr (eq c)) (Lit eq s')
  end.

Fixpoint nullable (r : regex) : bool :=
  match r with
  | Void => false
  | Eps => true
  | Chr _ => false
  | Cat r1 r2 => nullable r1 && nullable r2
  | Alt r1 r2 => nullable r1 || nullable r2
  | Star _ => true
  end.

Fixpoint deriv (c : ascii) (r : regex) : regex :=
  match r with
  | Void => Void
  | Eps => Void
  | Chr p => if p c then Eps else Void
  | Cat r1 r2 =>
      if nullable r1
      then Alt (Cat (deriv c r1) r2) (deriv c r2)
      else Cat (deriv c r1) r2
  | Alt r1 r2 => Alt (deriv c r1) (deriv c r2)
  | Star r1 => Cat (deriv c r1) (Star r1)
  end.

(** The whole of [s] is a word of [r]. *)
Fixpoint re_fullmatch (r : regex) (s : string) : bool :=
  match s with
  | EmptyString => nullable r
  | String c s' => re_fullmatch (deriv c r) s'
  end.

Definition any_char : regex := Chr (λ _, true).

(** [pattern.search(s)]: some substring of [s] is a word of [r]. *)
Definition re_search (r : regex) (s : string) : bool :=
  re_fullmatch (Cat (Star any_char) (Cat r (Star any_char))) s.

(** ** Owner-block extraction (main.py, lines 275-329) *)

(** [r'owner:'] under [re.IGNORECASE]. *)
Definition owner_tag_pattern : regex :=
  Lit (λ c x, Ascii.eqb (lower c) (lower x)) "owner:".

(** [(\*\*|#)]. *)
Definition marker : regex := Alt (Lit Ascii.eqb "**") (Chr (Ascii.eqb "#")).

(** [$]: the end of the string, or the line feed that ends it. *)
Definition dollar : regex := Opt (Chr (Ascii.eqb "010")).

(** [r'^\s*(\*\*|#)?\s*[a-zA-Z_]+:\s*(\*\*|#)?\s*$']. *)
Definition new_section_pattern : regex :=
  Cat (Star (Chr py_isspace))
 (Cat (Opt marker)
 (Cat (Star (Chr py_isspace))
 (Cat (Plus (Chr is_key_char))
 (Cat (Chr (Ascii.eqb ":"))
 (Cat (Star (Chr py_isspace))
 (Cat (Opt marker)
 (Cat (Star (Chr py_isspace)) dollar))))))).

(** [new_section_pattern.match(next_line.strip())]: the test that ends an
    owner block. *)
Definition is_terminator (next_line : string) : bool :=
  re_fullmatch new_section_pattern (strip next_line).

(** The longest prefix of [s] made of characters of [p], and what follows. *)
Fixpoint span (p : ascii → bool) (s : string) : string * string :=
  match s with
  | EmptyString => (EmptyString, EmptyString)
  | String c s' =>
      if p c
      then let '(run, rest) := span p s' in (String c run, rest)
      else (EmptyString, s)
  end.

(** One attempt of [r'[\w\.-]+@[\w\.-]+'] at the start of [s]: both runs
    are greedy and the class has no [@], so the first run is the maximal
    one and must be followed by [@] and a non-empty second run. *)
Definition email_at (s : string) : option (string * string) :=
  let '(local_part, rest) := span is_email_char s in
  match local_part, rest with
  | String _ _, String "@" rest' =>
      let '(domain, rest'') := span is_email_char rest' in
      match domain with
      | EmptyString => None
      | _ => Some (local_part +:+ String "@" domain, rest'')
      end
  | _, _ => None
  end.

(** [email_pattern.findall]: matches from left to right, the scan resuming
    after each match and one character further after a failed attempt. *)
Fixpoint findall_from (fuel : nat) (s : string) : list string :=
  match fuel, s with
  | S fuel', String _ s' =>
      match email_at s with
      | Some (email, rest) => email :: findall_from fuel' rest
      | None => findall_from fuel' s'
      end
  | _, _ => []
  end.

Definition email_findall (s : string) : list string :=
  findall_from (String.length s) s.

(** [f.readlines()]: the text cut after every line feed. *)
Fixpoint readlines_from (current text : string) : list string :=
  match text with
  | EmptyString =>
      match current with EmptyString => [] | _ => [String.rev current] end
  | String c text' =>
      if Ascii.eqb c "010"
      then String.rev (String c current) :: readlines_from EmptyString text'
      else readlines_from (String c current) text'
  end.

Definition readlines (text : string) : list string :=
  readlines_from EmptyString text.

(** The inner loop [for j in range(i + 1, len(lines))], over the lines that
    follow line [i]; [break] returns the emails gathered so far. *)
Fixpoint scan_block (following : list string) (owner_emails : list string)
  : list string :=
  match following with
  | [] => owner_emails
  | next_line :: rest =>
      if is_terminator next_line
      then owner_emails
      else scan_block rest (owner_emails ++ email_findall next_line)
  end.

(** The outer loop [for i, line in enumerate(lines)]. *)
Fixpoint scan_lines (lines : list string) (owner_emails : list string)
  : list string :=
  match lines with
  | [] => owner_emails
  | line :: rest =>
      if re_search owner_tag_pattern line
      then scan_lines rest (scan_block rest owner_emails)
      else scan_lines rest owner_emails
  end.

(** [sorted(list(set(l)))]. *)
Definition sorted_set (l : list string) : list string :=
  merge_sort String.le (remove_dups l).

Definition extract_owners_from_lines (lines : list string) : list string :=
  match scan_lines lines [] with
  | [] => []
  | owner_emails => sorted_set owner_emails
  end.

Definition extract_owners_from_file (env : Env) (filepath : string)
  : list string :=
  match read_strict env filepath with
  | None => []
  | Some text => extract_owners_from_lines (readlines text)
  end.

(** ** [pathlib.Path] on Windows

    The tool is written for Windows paths (the anchor [\pipeline], the
    examples in its comments), where [Path] is [WindowsPath].  What follows
    transcribes [ntpath.splitroot] and [PureWindowsPath._parse_path] of
    Python 3.12; older versions of [pathlib] give the same drive, root and
    components for drive-letter, rooted and relative paths and differ on
    some malformed UNC prefixes only. *)

(** The upper case of the letters [a] to [z].  [splitroot] upper-cases a
    prefix only to compare it with the text of the UNC device prefix, and of
    the characters modelled only these letters have [U], [N] or [C] as their
    upper case. *)
Definition upper (c : ascii) : ascii :=
  if in_range "a" "z" c
  then ascii_of_nat (nat_of_ascii c - 32)
  else c.

Fixpoint map_chars (f : ascii → ascii) (s : string) : string :=
  match s with
  | EmptyString => EmptyString
  | String c s' => String (f c) (map_chars f s')
  end.

(** [s.replace(a, b)] for single characters. *)
Definition replace_char (a b : ascii) (s : string) : string :=
  map_chars (λ c, if Ascii.eqb c a then b else c) s.

(** The slices [s[:k]] and [s[k:]]. *)
Definition slice_to (k : nat) (s : string) : string := String.substring 0 k s.
Definition slice_from (k : nat) (s : string) : string :=
  String.substring k (String.length s) s.

(** [s.find(c, start)], [None] standing for [-1]. *)
Definition find_char (c : ascii) (start : nat) (s : string) : option nat :=
  String.index start (String c EmptyString) s.

(** [s.split(sep)]. *)
Fixpoint split_on (sep : ascii) (s : string) : list string :=
  match s with
  | EmptyString => [EmptyString]
  | String c s' =>
      if Ascii.eqb c sep
      then EmptyString :: split_on sep s'
      else match split_on sep s' with
           | part :: parts => String c part :: parts
           | [] => [String c EmptyString]
           end
  end.

Definition sep : ascii := "\".
Definition altsep : ascii := "/".

(** [ntpath.splitroot]: drive, root and the rest of a path. *)
Definition splitroot (p : string) : string * string * string :=
  let normp := replace_char altsep sep p in
  if String.eqb (slice_to 1 normp) (String sep "") then
    if String.eqb (slice_to 1 (slice_from 1 normp)) (String sep "") then
      (* UNC and device drives *)
      let start :=
        if String.eqb (map_chars upper (slice_to 8 normp)) "\\?\UNC\"
        then 8 else 2 in
      match find_char sep start normp with
      | None => (p, "", "")
      | Some index =>
          match find_char sep (index + 1) normp with
          | None => (p, "", "")
          | Some index2 =>
              (slice_to index2 p, slice_to 1 (slice_from index2 p),
               slice_from (index2 + 1) p)
          end
      end
    else
      (* a root without a drive *)
      ("", slice_to 1 p, slice_from 1 p)
  else if String.eqb (slice_to 1 (slice_from 1 normp)) ":" then
    if String.eqb (slice_to 1 (slice_from 2 normp)) (String sep "") then
      (slice_to 2 p, slice_to 1 (slice_from 2 p), slice_from 3 p)
    else
      (slice_to 2 p, "", slice_from 2 p)
  else
    ("", "", p).

(** [PureWindowsPath._parse_path]: drive, root and the components of the
    rest, the empty ones and [.] dropped. *)
Definition parse_path (path : string) : string * string * list string :=
  match path with
  | EmptyString => ("", "", [])
  | _ =>
      let path := replace_char altsep sep path in
      let '(drv, root, rel) := splitroot path in
      let root :=
        if String.eqb root "" && String.prefix (String sep "") drv
           && negb (endswith drv (String sep ""))
        then
          let drv_parts := split_on sep drv in
          if Nat.eqb (length drv_parts) 4
             && negb (py_in (default "" (drv_parts !! 2)) "?.")
          then String sep ""
          else if Nat.eqb (length drv_parts) 6 then String sep "" else root
        else root in
      let parsed :=
        filter (λ x, x ≠ "" ∧ x ≠ ".") (split_on sep rel) in
      (drv, root, parsed)
  end.

(** [Path(p).parts]. *)
Definition path_parts (p : string) : list string :=
  let '(drv, root, tail) := parse_path p in
  match drv +:+ root with
  | EmptyString => tail
  | anchor => anchor :: tail
  end.

(** [s.rfind('.')], [None] standing for [-1]. *)
Fixpoint rfind_dot (s : string) : option nat :=
  match s with
  | EmptyString => None
  | String c s' =>
      match rfind_dot s' with
      | Some i => Some (S i)
      | None => if Ascii.eqb c "." then Some 0 else None
      end
  end.

(** [Path(p).stem]: the last component without its last suffix. *)
Definition path_stem (p : string) : string :=
  let '(_, _, tail) := parse_path p in
  let name := default "" (last tail) in
  match rfind_dot name with
  | Some i =>
      if Nat.ltb 0 i && Nat.ltb i (String.length name - 1)
      then slice_to i name
      else name
  | None => name
  end.

(** ** [get_filename_from_path] (main.py, line 128) *)

Definition get_filename_from_path (filepath : string) : string :=
  path_stem filepath.

(** ** [get_first_subfolder_from_anchor] (main.py, line 373) *)

(** [parts.index(x)] for an [x] known to be in [parts]. *)
Fixpoint list_index (x : string) (parts : list string) : nat :=
  match parts with
  | [] => 0
  | y :: parts' => if decide (y = x) then 0 else S (list_index x parts')
  end.

Definition get_first_subfolder_from_anchor (file_path anchor_folder : string)
  : option string :=
  let parts := path_parts file_path in
  if decide (anchor_folder ∈ parts) then
    let anchor_index := list_index anchor_folder parts in
    if Nat.ltb (anchor_index + 1) (length parts)
    then parts !! (anchor_index + 1)
    else None
  else None.

(** The default value of [anchor_folder]. *)
Definition default_anchor : string := "pipeline".

(** [results[key].append(value)]: [KeyError] on a missing key. *)
Definition dict_append (results : gmap string (list string))
    (key value : string) : outcome (gmap string (list string)) :=
  match results !! key with
  | Some l => Returns (<[key := l ++ [value]]> results)
  | None => Raises KeyError
  end.

(** [{search_string: [] for search_string in search_data}]. *)
Definition empty_results (search_data : list string)
  : gmap string (list string) :=
  fold_left (λ results search_string, <[search_string := []]> results)
    search_data ∅.

(** The files of a walk, directory by directory, with their directory. *)
Definition walked_files (env : Env) (root_path : string)
  : list (string * string) :=
  '(subdir, files) ← walk env root_path; (λ file, (subdir, file)) <$> files.

(** ** [find_strings_in_sql_files] (main.py, line 34) *)

Section Scanners.
Variable env : Env.

(** Body of [for search_string in search_data] (also that of
    [find_list_strings_in_py_files]). *)
Definition record_if_in (content file_path : string)
    (results : gmap string (list string)) (search_string : string)
  : outcome (gmap string (list string)) :=
  if py_in search_string content
  then dict_append results search_string file_path
  else Returns results.

(** Body of [for file in files] for the files that pass the name test. *)
Definition scan_file_for_list (search_data : list string)
    (results : gmap string (list string)) (file_path : string)
  : outcome (gmap string (list string)) :=
  match read_text env file_path with
  | Some content =>
      for_each search_data (record_if_in content file_path) results
  | None => Returns results
  end.

Definition find_strings_in_sql_files (search_data : list string)
    (root_path : string) : outcome (gmap string (list string)) :=
  for_each (walked_files env root_path)
    (λ results '(subdir, file),
       if endswith file ".sql" && negb (String.eqb file "table_list.sql")
       then scan_file_for_list search_data results
              (path_join env subdir file)
       else Returns results)
    (empty_results search_data).

(** ** [find_list_strings_in_py_files] (main.py, line 168) *)

Definition find_list_strings_in_py_files (search_data : list string)
    (root_path : string) : outcome (gmap string (list string)) :=
  for_each (walked_files env root_path)
    (λ results '(subdir, file),
       if endswith file ".py"
       then scan_file_for_list search_data results
              (path_join env subdir file)
       else Returns results)
    (empty_results search_data).

(** ** [find_dict_strings_in_py_files] (main.py, line 139) *)

(** Body of [for search_string in results.keys()]. *)
Definition record_stem_once (content file_path : string)
    (results : gmap string (list string)) (search_string : string)
  : outcome (gmap string (list string)) :=
  if py_in (get_filename_from_path search_string) content then
    match results !! search_string with
    | Some l =>
        if decide (file_path ∈ l)
        then Returns results
        else Returns (<[search_string := l ++ [file_path]]> results)
    | None => Raises KeyError
    end
  else Returns results.

Definition scan_file_for_stems
    (results : gmap string (list string)) (file_path : string)
  : outcome (gmap string (list string)) :=
  match read_text env file_path with
  | Some content =>
      for_each (map_to_list results).*1
        (record_stem_once content file_path) results
  | None => Returns results
  end.

Definition find_dict_strings_in_py_files
    (search_data : gmap string (list string)) (root_path : string)
  : outcome (gmap string (list string)) :=
  let all_search_strings := concat (map_to_list search_data).*2 in
  results ← for_each (walked_files env root_path)
    (λ results '(subdir, file),
       if endswith file ".py"
       then scan_file_for_stems results (path_join env subdir file)
       else Returns results)
    (empty_results all_search_strings);
  Returns (filter (λ kv, kv.2 ≠ []) results).

End Scanners.

(** ** [find_yaml_paths_in_files] (main.py, line 188) *)

Fixpoint strip_prefix (pre s : string) : option string :=
  match pre, s with
  | EmptyString, _ => Some s
  | String a pre', String b s' =>
      if Ascii.eqb a b then strip_prefix pre' s' else None
  | String _ _, EmptyString => None
  end.

(** The class of the two quote characters, single (39) and double (34). *)
Definition is_quote (c : ascii) : bool :=
  Ascii.eqb c "039" || Ascii.eqb c "034".

(** The lazy group [(.*?)] followed by a quote: the text up to the first
    quote, which no line feed may precede. *)
Fixpoint until_quote (s : string) : option (string * string) :=
  match s with
  | EmptyString => None
  | String c s' =>
      if is_quote c then Some (EmptyString, s')
      else if Ascii.eqb c "010" then None
      else '(captured, rest) ← until_quote s'; Some (String c captured, rest)
  end.

(** One attempt of the pattern at the start of [s]: the literal [yaml.],
    an optional [safe_], the literal [load(open(], a quote, the lazy group
    and a quote.  The result is the captured path and the text after the
    match. *)
Definition yaml_call_at (s : string) : option (string * string) :=
  s1 ← strip_prefix "yaml." s;
  s2 ← match strip_prefix "safe_load(open(" s1 with
       | Some s2 => Some s2
       | None => strip_prefix "load(open(" s1
       end;
  match s2 with
  | String q s3 => if is_quote q then until_quote s3 else None
  | EmptyString => None
  end.

Fixpoint yaml_findall_from (fuel : nat) (s : string) : list string :=
  match fuel, s with
  | S fuel', String _ s' =>
      match yaml_call_at s with
      | Some (path, rest) => path :: yaml_findall_from fuel' rest
      | None => yaml_findall_from fuel' s'
      end
  | _, _ => []
  end.

Definition yaml_findall (content : string) : list string :=
  yaml_findall_from (String.length content) content.

Definition find_yaml_paths_in_files (env : Env) (py_files : list string)
  : gmap string (list string) :=
  fold_left
    (λ extracted_paths_dict py_file,
       <[py_file := match read_strict env py_file with
                    | Some content => yaml_findall content
                    | None => []
                    end]> extracted_paths_dict)
    py_files ∅.

(** ** [get_external_table_names_from_csv] (main.py, line 6) *)

Definition table_name_of_row (row : list string) : option string :=
  match row with
  | _ :: schema :: table :: _ => Some (strip schema +:+ "." +:+ strip table)
  | _ => None
  end.

Definition get_external_table_names_from_csv (env : Env) (filepath : string)
  : outcome (gmap string (list string)) :=
  if negb (path_exists env filepath) then Returns ∅
  else
    match read_csv env filepath with
    | None => Returns ∅
    | Some [] => Raises StopIteration
    | Some (_ :: rows) =>
        Returns {[ "external_table_names" := omap table_name_of_row rows ]}
    end.

(** ** The driver (main.py, lines 430-460), up to the first write *)

(** A call whose list argument is the value of [dict.get]: the callee
    starts by iterating it, which raises [TypeError] on [None]. *)
Definition call_with_list {A : Type} (callee : list string → outcome A)
    (argument : option (list string)) : outcome A :=
  match argument with
  | Some l => callee l
  | None => Raises TypeError
  end.

(** The scanners' lists hold paths only; the join also accepts [None]. *)
Definition as_join_map (m : gmap string (list string))
  : gmap string (list (option string)) :=
  (λ l : list string, Some <$> l) <$> m.

Definition main (set_iter : gset string → list string) (env : Env)
    (input_csv_file_path pipeline_file_path : string)
  : outcome (list (list string)) :=
  external_table_names ←
    get_external_table_names_from_csv env input_csv_file_path;
  sql_file_paths ←
    call_with_list
      (λ names, find_strings_in_sql_files env names pipeline_file_path)
      (external_table_names !! "external_table_names");
  py_file_paths ←
    find_dict_strings_in_py_files env sql_file_paths pipeline_file_path;
  py_file_paths_by_table_name ←
    call_with_list
      (λ names, find_list_strings_in_py_files env names pipeline_file_path)
      (external_table_names !! "external_table_names");
  yaml_files ←
    find_list_strings_in_py_files env [".yaml"] pipeline_file_path;
  yaml_airflow_file_paths ←
    call_with_list (λ files, Returns (find_yaml_paths_in_files env files))
      (yaml_files !! ".yaml");
  call_with_list
    (λ names,
       Returns (write_to_csv_rows set_iter
                  (as_join_map sql_file_paths) (as_join_map py_file_paths)
                  (as_join_map py_file_paths_by_table_name)
                  (as_join_map yaml_airflow_file_paths) names))
    (external_table_names !! "external_table_names").

(** ** [extract_owners] (main.py, line 59)

    The two loops over the lines of a file are those of
    [extract_owners_from_file]; a file that cannot be read is skipped and a
    file without addresses gets no key. *)

Definition extract_owners (env : Env) (files_dict : gmap string (list string))
  : gmap string (list string) :=
  fold_left
    (λ owner_results filepath,
       match read_strict env filepath with
       | None => owner_results
       | Some text =>
           match scan_lines (readlines text) [] with
           | [] => owner_results
           | file_owners => <[filepath := sorted_set file_owners]> owner_results
           end
       end)
    (concat (map_to_list files_dict).*2) ∅.

(** ** [format_path_to_relative] (main.py, line 410) *)

Definition target_str : string := "\pipeline".

(** [str.index] raises [ValueError] when the target does not occur; the
    handler returns the trimmed path. *)
Definition format_path_to_relative (filepath : string) : string :=
  let clean_filepath := strip filepath in
  match String.index 0 target_str clean_filepath with
  | Some index => slice_from index clean_filepath
  | None => strip filepath
  end.

(** ** [create_dict_from_csv] (main.py, line 330) *)

(** One row of [csv.DictReader]: the fields zipped with the field names, a
    later name winning over an earlier equal one, and [None] (the
    [restval]) under the names a short row leaves without a field.  The
    extra fields of a long row go under the key [None], which no lookup of
    the tool reads; they are left out here. *)
Definition dict_row (fieldnames row : list string)
  : gmap string (option string) :=
  let d :=
    fold_left (λ d '(key, value), <[key := Some value]> d)
      (zip fieldnames row) ∅ in
  fold_left (λ d key, <[key := None]> d) (drop (length row) fieldnames) d.

(** [row.get(key, '')]; the result [None] is Python's [None]. *)
Definition row_get (d : gmap string (option string)) (key : string)
  : option string :=
  match d !! key with
  | Some value => value
  | None => Some ""
  end.

(** The loop [for row in reader].  [DictReader] skips the rows without any
    field; [.strip()] on [None] raises an [AttributeError], which the
    handler of the function catches: the loop ends there and what was
    gathered so far is returned. *)
Fixpoint create_dict_loop (fieldnames : list string)
    (rows : list (list string)) (dag_executions : gmap string string)
  : gmap string string :=
  match rows with
  | [] => dag_executions
  | [] :: rest => create_dict_loop fieldnames rest dag_executions
  | row :: rest =>
      let d := dict_row fieldnames row in
      match row_get d "dag_id" with
      | None => dag_executions
      | Some raw_dag_id =>
          let dag_id := strip raw_dag_id in
          match row_get d "execution_datetime" with
          | None => dag_executions
          | Some raw_datetime =>
              let exec_datetime := strip raw_datetime in
              create_dict_loop fieldnames rest
                (if String.eqb dag_id ""
                 then dag_executions
                 else <[dag_id := exec_datetime]> dag_executions)
          end
      end
  end.

(** The first row the reader yields holds the field names; a file that
    cannot be opened, like a file without any row, gives the empty
    dictionary. *)
Definition create_dict_from_csv (env : Env) (file_path : string)
  : gmap string string :=
  match read_csv env file_path with
  | None => ∅
  | Some [] => ∅
  | Some (fieldnames :: rows) => create_dict_loop fieldnames rows ∅
  end.

(** ** [output_csv_to_list] (main.py, line 353)

    [reader] is what [csv.reader] yields for the file; opening the file is
    left to the caller. *)

Definition output_csv_to_list (reader : list (list string))
  : outcome (list (list string)) :=
  match reader with
  | [] => Raises StopIteration
  | _ :: rows => Returns (filter (λ row, length row = 4) rows)
  end.

(** ** [overwrite_csv] (main.py, line 364) *)

(** [str(l)] for a list of addresses.  An address is made of letters,
    digits and the characters [_.-@], so its [repr] is the address between
    single quotes. *)
Definition py_str_list (l : list string) : string :=
  "[" +:+ String.concat ", " (map (λ e, "'" +:+ e +:+ "'") l) +:+ "]".

(** A field as [csv.writer] writes it: [None] becomes the empty string. *)
Definition csv_field (value : option string) : string := default "" value.

(** The row written for [row]; [None] when an index is out of range and
    the [IndexError] leaves the function. *)
Definition overwrite_row (env : Env) (time : gmap string string)
    (row : list string) : option (list string) :=
  match row with
  | r0 :: r1 :: r2 :: rest =>
      if Nat.ltb 0 (String.length r2) then
        match rest with
        | r3 :: _ =>
            Some [r0; format_path_to_relative r1; format_path_to_relative r2;
                  csv_field (get_first_subfolder_from_anchor r2 default_anchor);
                  csv_field (time !! get_filename_from_path r2);
                  r3; py_str_list (extract_owners_from_file env r2)]
        | [] => None
        end
      else Some [r0; format_path_to_relative r1; ""; ""; ""; ""; ""]
  | _ => None
  end.

(** The rows written after the header, in the order of [rows]. *)
Definition overwrite_csv_rows (env : Env) (time : gmap string string)
    (rows : list (list string)) : option (list (list string)) :=
  mapM (overwrite_row env time) rows.

(** * Vocabulary of the properties

    The words of a regular expression, the files a scanner opens, what a
    file adds to a result, and the shapes of a section-header line. *)

(** The words of a regular expression. *)
Inductive lang : regex → string → Prop :=
| lang_eps : lang Eps ""
| lang_chr p c : p c = true → lang (Chr p) (String c "")
| lang_cat r1 r2 s1 s2 :
    lang r1 s1 → lang r2 s2 → lang (Cat r1 r2) (s1 +:+ s2)
| lang_alt_l r1 r2 s : lang r1 s → lang (Alt r1 r2) s
| lang_alt_r r1 r2 s : lang r2 s → lang (Alt r1 r2) s
| lang_star_nil r : lang (Star r) ""
| lang_star_cons r s1 s2 :
    lang r s1 → lang (Star r) s2 → lang (Star r) (s1 +:+ s2).

(** The paths a scanner opens: the walked files that pass its name test. *)
Definition scanned_paths (env : Env) (name_ok : string → bool)
    (root_path : string) : list string :=
  (λ '(subdir, file), path_join env subdir file) <$>
    filter (λ '(_, file), name_ok file = true) (walked_files env root_path).

(** How often [k] occurs in [l]. *)
Definition occurrences (k : string) (l : list string) : nat :=
  length (filter (λ x, x = k) l).

(** What one file adds under the key [k]. *)
Definition hits (env : Env) (search_data : list string) (k : string)
    (file_path : string) : list string :=
  match read_text env file_path with
  | Some content =>
      if py_in k content
      then replicate (occurrences k search_data) file_path
      else []
  | None => []
  end.

(** Name tests of the two kinds of scanner. *)
Definition sql_name_ok (file : string) : bool :=
  endswith file ".sql" && negb (String.eqb file "table_list.sql").

Definition py_name_ok (file : string) : bool := endswith file ".py".

(** A file matches [k] when it can be read and its text contains [k]. *)
Definition file_matches (env : Env) (k file_path : string) : Prop :=
  ∃ content, read_text env file_path = Some content ∧ py_in k content = true.

(** [results[key]] after one file: the path is appended when the file is a
    hit and the list does not hold it yet. *)
Definition add_once (hit : bool) (file_path : string) (l : list string)
  : list string :=
  if hit && negb (bool_decide (file_path ∈ l)) then l ++ [file_path] else l.

(** The file can be read and its text contains the stem of [k]. *)
Definition stem_hit (env : Env) (k file_path : string) : bool :=
  match read_text env file_path with
  | Some content => py_in (get_filename_from_path k) content
  | None => false
  end.

(** The list under [k] after the files [paths], starting from [l]. *)
Definition stem_matches (env : Env) (k : string) (paths : list string)
    (l : list string) : list string :=
  fold_left (λ l p, add_once (stem_hit env k p) p l) paths l.

(** The words of [(\*\*|#)?]. *)
Definition is_marker (m : string) : Prop := m = "" ∨ m = "**" ∨ m = "#".

(** The lines the pattern accepts: blanks, an optional marker, blanks, a
    key of letters and underscores, a colon, blanks, an optional marker,
    blanks. *)
Definition header_shape (s : string) : Prop :=
  ∃ w0 m1 w1 key w2 m2 w3,
    s = w0 +:+ m1 +:+ w1 +:+ key +:+ ":" +:+ w2 +:+ m2 +:+ w3 ∧
    all_chars py_isspace w0 = true ∧ is_marker m1 ∧
    all_chars py_isspace w1 = true ∧
    key ≠ "" ∧ all_chars is_key_char key = true ∧
    all_chars py_isspace w2 = true ∧ is_marker m2 ∧
    all_chars py_isspace w3 = true.

Definition is_at (c : ascii) : bool := Ascii.eqb c "@".

(** The characters that may follow the colon of a header line. *)
Definition trailing_ok (c : ascii) : bool :=
  py_isspace c || Ascii.eqb c "*" || Ascii.eqb c "#".

(** The characters that may precede it. *)
Definition leading_ok (c : ascii) : bool :=
  trailing_ok c || is_key_char c.


(** The file can be read and its text contains [k]. *)
Definition file_hit (env : Env) (k file_path : string) : bool :=
  match read_text env file_path with
  | Some content => py_in k content
  | None => false
  end.

Definition is_line_feed (c : ascii) : bool := Ascii.eqb c "010".

(** [p] stands in [s] between two quotes, the first one right after the
    text [load(open(]. *)
Definition quoted_after_open (s p : string) : Prop :=
  ∃ before after q0 q1,
    s = before +:+ ("load(open(" +:+ String q0 p) +:+ String q1 after ∧
    is_quote q0 = true ∧ is_quote q1 = true.

(** [e] is a part of [s]. *)
Definition part_of (e s : string) : Prop :=
  ∃ before after, s = before +:+ e +:+ after.

(** The shape of a match of the email pattern. *)
Definition email_shape (e : string) : Prop :=
  ∃ local_part domain,
    e = local_part +:+ "@" +:+ domain ∧
    local_part ≠ "" ∧ domain ≠ "" ∧
    all_chars is_email_char local_part = true ∧
    all_chars is_email_char domain = true.

(** What [find_yaml_paths_in_files] stores for one script. *)
Definition yaml_paths_of (env : Env) (py_file : string) : list string :=
  match read_strict env py_file with
  | Some content => yaml_findall content
  | None => []
  end.

(** The two separators of a Windows path. *)
Definition is_sep (c : ascii) : bool :=
  Ascii.eqb c sep || Ascii.eqb c altsep.

Definition is_dot (c : ascii) : bool := Ascii.eqb c ".".

(** The header of a run-time file as [create_dict_from_csv] expects it. *)
Definition dag_header : list string := ["dag_id"; "execution_datetime"].

(** * A small file tree and other sample data *)

Definition owners_example : string :=
  "owner: a@x.com" +:+ String "010" (
  "next: b@x.com" +:+ String "010" (
  "State: foo" +:+ String "010"
  "owner: c@x.com")).

Definition demo_join (subdir file : string) : string :=
  subdir +:+ "\" +:+ file.

Definition demo_read (path : string) : option string :=
  if String.eqb path "root\dags\load.py"
  then Some ("run('stage.sql'); run('stage.sql'); A.B; A.B; " +:+
             "cfg = yaml.safe_load(open('conf/a.yaml'))")
  else if String.eqb path "root\sqls\stage.sql"
  then Some "select * from A.B"
  else if String.eqb path "root\sqls\table_list.sql"
  then Some "A.B"
  else None.

(** The catalog [tables.csv] has a header, two usable rows and a short
    one; no other CSV file exists. *)
Definition demo_env : Env := {|
  path_exists := λ path, String.eqb path "tables.csv";
  walk := λ _, [("root\dags", ["load.py"; "broken.py"; "notes.txt"]);
                ("root\sqls", ["stage.sql"; "table_list.sql"])];
  path_join := demo_join;
  read_text := demo_read;
  read_strict := demo_read;
  read_csv := λ path,
    if String.eqb path "tables.csv"
    then Some [["id"; "schema"; "table"]; ["1"; " A"; "B "];
               ["2"; "C"; "D"; "extra"]; ["3"; "short"]]
    else None
|}.

(** Demonstration maps: one table with a SQL file, a script found both by
    stem and by table name, and two configuration files; one table with
    nothing. *)
Definition demo_sql_paths : gmap string (list (option string)) :=
  {[ "A.B" := [Some "root\sqls\stage.sql"]; "C.D" := [] ]}.
Definition demo_py_paths : gmap string (list (option string)) :=
  {[ "root\sqls\stage.sql" := [Some "root\dags\load.py"] ]}.
Definition demo_py_table_paths : gmap string (list (option string)) :=
  {[ "A.B" := [Some "root\dags\load.py"]; "C.D" := [] ]}.
Definition demo_yaml_paths : gmap string (list (option string)) :=
  {[ "root\dags\load.py" := [Some "conf/a.yaml"; Some "conf/b.yaml"] ]}.

Definition demo_report : list (list string) :=
  write_to_csv_rows elements demo_sql_paths demo_py_paths
    demo_py_table_paths demo_yaml_paths ["A.B"; "C.D"; "E.F"].

(** Two run-time files: one with two rows for the same dag, a row of one
    field and a row after it, and the same file cut before the short
    row. *)
Definition times_env : Env := {|
  path_exists := λ _, true;
  walk := λ _, [];
  path_join := demo_join;
  read_text := λ _, None;
  read_strict := λ _, None;
  read_csv := λ path,
    if String.eqb path "times.csv"
    then Some [dag_header; ["load"; " 05:00 "]; ["load"; "06:00"];
               ["short"]; ["late"; "07:00"]]
    else if String.eqb path "cut.csv"
    then Some [dag_header; ["load"; " 05:00 "]; ["load"; "06:00"]]
    else if String.eqb path "empty.csv"
    then Some []
    else None
|}.

(** A no-break space (U+00A0) and an address with an accented letter
    (U+00E9). *)
Definition nbsp : string := String "160" "".
Definition accented_address : string := "jos" +:+ String "233" "@x.com".

(** * The program on the sample data *)

Example owners_example_lines :
  readlines owners_example =
    ["owner: a@x.com" +:+ String "010" ""; "next: b@x.com" +:+ String "010" "";
     "State: foo" +:+ String "010" ""; "owner: c@x.com"].
Proof. vm_compute. reflexivity. Qed.

Example owners_example_result :
  extract_owners_from_lines (readlines owners_example) =
    ["b@x.com"; "c@x.com"].
Proof. vm_compute. reflexivity. Qed.

Example nbsp_is_trimmed_and_is_a_blank :
  strip (nbsp +:+ "State:" +:+ nbsp) = "State:" ∧
  is_terminator ("State:" +:+ nbsp) = true ∧
  is_terminator ("State: " +:+ nbsp +:+ " #") = true ∧
  extract_owners_from_lines ["owner:"; "State:" +:+ nbsp; "x@y.z"] = [].
Proof. split_and!; vm_compute; reflexivity. Qed.

Example accented_address_is_found :
  email_findall ("mail " +:+ accented_address +:+ ", ok")
    = [accented_address] ∧
  extract_owners_from_lines ["Owner:"; accented_address]
    = [accented_address].
Proof. split; vm_compute; reflexivity. Qed.

Example parts_example :
  path_parts "C:\x\pipeline\sales\dags\a.py" =
    ["C:\"; "x"; "pipeline"; "sales"; "dags"; "a.py"].
Proof. vm_compute. reflexivity. Qed.

Example stem_example :
  get_filename_from_path "\pipeline\stock\stock.sql" = "stock".
Proof. vm_compute. reflexivity. Qed.

(** The first [pipeline] counts, as [parts.index] finds it. *)
Example subfolder_repeated_anchor :
  get_first_subfolder_from_anchor "pipeline\x\pipeline" default_anchor
    = Some "x".
Proof. vm_compute. reflexivity. Qed.

Example subfolder_example :
  get_first_subfolder_from_anchor "C:\x\pipeline\sales\dags\a.py"
    default_anchor = Some "sales".
Proof. vm_compute. reflexivity. Qed.

Example demo_sql_scan :
  find_strings_in_sql_files demo_env ["A.B"; "C.D"] "root" =
    Returns {[ "A.B" := ["root\sqls\stage.sql"]; "C.D" := [] ]}.
Proof. vm_compute. reflexivity. Qed.

Example demo_by_table_twice :
  find_list_strings_in_py_files demo_env ["A.B"; "A.B"] "root" =
    Returns {[ "A.B" := ["root\dags\load.py"; "root\dags\load.py"] ]}.
Proof. vm_compute. reflexivity. Qed.

Example demo_by_stem :
  find_dict_strings_in_py_files demo_env
    {[ "A.B" := ["root\sqls\stage.sql"]; "C.D" := ["root\sqls\none.sql"] ]}
    "root" =
    Returns {[ "root\sqls\stage.sql" := ["root\dags\load.py"] ]}.
Proof. vm_compute. reflexivity. Qed.

Example yaml_findall_example :
  yaml_findall ("a = yaml.safe_load(open('conf/a.yaml')); " +:+
                "yaml.load(open('b.yaml', 'r'))")
    = ["conf/a.yaml"; "b.yaml"].
Proof. vm_compute. reflexivity. Qed.

Example main_missing_catalog :
  main elements demo_env "missing.csv" "root" = Raises TypeError.
Proof. vm_compute. reflexivity. Qed.

Example main_with_catalog :
  main elements demo_env "tables.csv" "root" =
    Returns
      [["A.B"; "root\sqls\stage.sql"; "root\dags\load.py"; "conf/a.yaml"];
       ["C.D"; ""; ""; ""]].
Proof. vm_compute. reflexivity. Qed.

Example demo_report_rows :
  demo_report =
    [["A.B"; "root\sqls\stage.sql"; "root\dags\load.py"; "conf/a.yaml"];
     ["A.B"; "root\sqls\stage.sql"; "root\dags\load.py"; "conf/b.yaml"];
     ["C.D"; ""; ""; ""];
     ["E.F"; ""; ""; ""]].
Proof. vm_compute. reflexivity. Qed.

(** * Properties *)

(** ** The join

    The maps and the iteration order are fixed throughout this section. *)

Section JoinFacts.
Variable set_iter : gset string → list string.
Hypothesis set_iter_perm : ∀ s, set_iter s ≡ₚ elements s.

Variables sql_paths py_paths py_table_paths yaml_paths
  : gmap string (list (option string)).

Local Abbreviation join_py := (join_py yaml_paths).
Local Abbreviation all_py_paths := (all_py_paths py_paths py_table_paths).
Local Abbreviation join_sql :=
  (join_sql set_iter py_paths py_table_paths yaml_paths).
Local Abbreviation join_table :=
  (join_table set_iter sql_paths py_paths py_table_paths yaml_paths).
Local Abbreviation write_to_csv_rows :=
  (write_to_csv_rows set_iter sql_paths py_paths py_table_paths yaml_paths).
Local Abbreviation py_rows := (py_rows yaml_paths).
Local Abbreviation sql_rows :=
  (sql_rows set_iter py_paths py_table_paths yaml_paths).
Local Abbreviation table_rows :=
  (table_rows set_iter sql_paths py_paths py_table_paths yaml_paths).

Lemma fold_left_emit {A B} (f : list B → A → list B) (g : A → list B) l :
  (∀ acc x, x ∈ l → f acc x = acc ++ g x) →
  ∀ acc, fold_left f l acc = acc ++ concat (map g l).
Proof.
  induction l as [|x l IH]; intros Hf acc; simpl.
  - by rewrite app_nil_r.
  - rewrite Hf by left. rewrite IH, <- app_assoc; [done|].
    intros acc' y Hy. apply Hf. by right.
Qed.

Lemma join_yaml_fold t sp py ys rows :
  fold_left (join_yaml t sp py) ys rows = rows ++ yaml_rows t sp py ys.
Proof.
  revert rows. induction ys as [|y ys IH]; intros rows; simpl.
  - by rewrite app_nil_r.
  - rewrite IH. destruct y; simpl; by rewrite <- app_assoc.
Qed.

Lemma join_py_emit t sp rows py :
  join_py t sp rows py = rows ++ py_rows t sp py.
Proof.
  unfold py_rows, join_py. destruct (negb _); [done|].
  by rewrite !join_yaml_fold.
Qed.

Lemma join_sql_emit t rows sp : join_sql t rows sp = rows ++ sql_rows t sp.
Proof.
  unfold sql_rows, join_sql. destruct sp as [sp|]; [|done].
  destruct (decide _); [done|].
  rewrite !(fold_left_emit _ (py_rows t sp)); [done|..];
    intros; apply join_py_emit.
Qed.

Lemma join_table_emit rows t : join_table rows t = rows ++ table_rows t.
Proof.
  unfold table_rows, join_table. destruct (negb _); [done|].
  rewrite !(fold_left_emit _ (sql_rows t)); [done|..];
    intros; apply join_sql_emit.
Qed.

Lemma write_to_csv_rows_concat tables :
  write_to_csv_rows tables = concat (map table_rows tables).
Proof.
  unfold write_to_csv_rows.
  rewrite (fold_left_emit _ table_rows); [done|].
  intros; apply join_table_emit.
Qed.

Lemma elem_of_concat_map {A B} (g : A → list B) (l : list A) (y : B) :
  y ∈ concat (map g l) → ∃ x, x ∈ l ∧ y ∈ g x.
Proof.
  induction l as [|x l IH]; simpl; [by intros ?%not_elem_of_nil|].
  intros [Hy|Hy]%elem_of_app.
  - exists x. split; [left|done].
  - destruct (IH Hy) as (x' & ? & ?). exists x'. split; [by right|done].
Qed.

Lemma elem_of_concat_map_2 {A B} (g : A → list B) (l : list A) x y :
  x ∈ l → y ∈ g x → y ∈ concat (map g l).
Proof.
  induction 1 as [x l|x x' l Hx IH]; intros Hy; simpl; apply elem_of_app.
  - by left.
  - right. by apply IH.
Qed.

Lemma filter_all {A} (P : A → Prop) `{∀ x, Decision (P x)} (l : list A) :
  (∀ x, x ∈ l → P x) → filter P l = l.
Proof.
  induction l as [|x l IH]; intros HP; [done|].
  rewrite filter_cons_True by (apply HP; left).
  f_equal. apply IH. intros y Hy. apply HP. by right.
Qed.

Lemma filter_none {A} (P : A → Prop) `{∀ x, Decision (P x)} (l : list A) :
  (∀ x, x ∈ l → ¬ P x) → filter P l = [].
Proof.
  induction l as [|x l IH]; intros HP; [done|].
  rewrite filter_cons_False by (apply HP; left).
  apply IH. intros y Hy. apply HP. by right.
Qed.

(** *** Unfolding equations of the emitted rows *)

Lemma py_rows_eq t sp py :
  py_rows t sp py =
    if negb (py_any (get_paths yaml_paths py [None]))
    then [[t; sp; py; ""]]
    else yaml_rows t sp py (get_paths yaml_paths py [None]).
Proof.
  unfold py_rows, join_py. destruct (negb _); [done|].
  by rewrite join_yaml_fold.
Qed.

Lemma sql_rows_eq t sp :
  sql_rows t (Some sp) =
    if decide (all_py_paths t sp = ∅)
    then [[t; sp; ""; ""]]
    else concat (map (py_rows t sp) (set_iter (all_py_paths t sp))).
Proof.
  unfold sql_rows, join_sql. destruct (decide _); [done|].
  rewrite (fold_left_emit _ (py_rows t sp)); [done|].
  intros; apply join_py_emit.
Qed.

Lemma table_rows_eq t :
  table_rows t =
    if negb (py_any (get_paths sql_paths t [None]))
    then [[t; ""; ""; ""]]
    else concat (map (sql_rows t) (get_paths sql_paths t [None])).
Proof.
  unfold table_rows, join_table. destruct (negb _); [done|].
  rewrite (fold_left_emit _ (sql_rows t)); [done|].
  intros; apply join_sql_emit.
Qed.

(** *** Every emitted row starts with the table it was emitted for *)

Lemma py_rows_head t sp py row : row ∈ py_rows t sp py → head row = Some t.
Proof.
  rewrite py_rows_eq. destruct (negb _).
  - by intros ->%list_elem_of_singleton.
  - unfold yaml_rows. by intros (y & -> & _)%list_elem_of_fmap.
Qed.

Lemma sql_rows_head t sp row : row ∈ sql_rows t sp → head row = Some t.
Proof.
  destruct sp as [sp|].
  - rewrite sql_rows_eq. destruct (decide _).
    + by intros ->%list_elem_of_singleton.
    + intros (py & _ & Hrow)%elem_of_concat_map. by eapply py_rows_head.
  - by intros ->%list_elem_of_singleton.
Qed.

Lemma table_rows_head t row : row ∈ table_rows t → head row = Some t.
Proof.
  rewrite table_rows_eq. destruct (negb _).
  - by intros ->%list_elem_of_singleton.
  - intros (sp & _ & Hrow)%elem_of_concat_map. by eapply sql_rows_head.
Qed.

(** *** Every loop body appends at least one row *)

Lemma py_any_nonempty l : py_any l = true → l ≠ [].
Proof. by destruct l. Qed.

Lemma concat_map_nonempty {A B} (g : A → list B) (l : list A) :
  l ≠ [] → (∀ x, x ∈ l → g x ≠ []) → concat (map g l) ≠ [].
Proof.
  destruct l as [|x l]; [done|]. intros _ Hg. simpl.
  specialize (Hg x (list_elem_of_here _ _)).
  destruct (g x); [done|]. discriminate.
Qed.

Lemma py_rows_nonempty t sp py : py_rows t sp py ≠ [].
Proof.
  rewrite py_rows_eq. destruct (py_any _) eqn:Hany; simpl; [|done].
  apply py_any_nonempty in Hany. unfold yaml_rows.
  by destruct (get_paths yaml_paths py [None]).
Qed.

Lemma set_iter_nonempty (s : gset string) : s ≠ ∅ → set_iter s ≠ [].
Proof.
  intros Hs Hnil. apply Hs, leibniz_equiv, elements_empty_inv.
  pose proof (set_iter_perm s) as Hp. rewrite Hnil in Hp.
  by apply Permutation_nil.
Qed.

Lemma sql_rows_nonempty t sp : sql_rows t sp ≠ [].
Proof.
  destruct sp as [sp|]; [|done].
  rewrite sql_rows_eq. destruct (decide _); [done|].
  apply concat_map_nonempty; [by apply set_iter_nonempty|].
  intros; apply py_rows_nonempty.
Qed.

Lemma table_rows_nonempty t : table_rows t ≠ [].
Proof.
  rewrite table_rows_eq. destruct (py_any _) eqn:Hany; simpl; [|done].
  apply concat_map_nonempty; [by apply py_any_nonempty|].
  intros; apply sql_rows_nonempty.
Qed.

(** *** Rows of one table inside the whole report *)

Lemma filter_table_rows_same t :
  filter (λ row, head row = Some t) (table_rows t) = table_rows t.
Proof.
  apply filter_all. intros row. apply table_rows_head.
Qed.

Lemma filter_table_rows_other t t' :
  t' ≠ t → filter (λ row, head row = Some t) (table_rows t') = [].
Proof.
  intros Hne. apply filter_none.
  intros row Hrow%table_rows_head. congruence.
Qed.

Lemma filter_report_table t tables :
  filter (λ row, head row = Some t) (write_to_csv_rows tables) =
    concat (replicate (length (filter (λ x, x = t) tables)) (table_rows t)).
Proof.
  rewrite write_to_csv_rows_concat.
  induction tables as [|t' tables IH]; [done|]. simpl.
  rewrite filter_app, IH, filter_cons. case_decide as Ht.
  - subst t'. by rewrite filter_table_rows_same.
  - by rewrite filter_table_rows_other.
Qed.

End JoinFacts.

(** ** Loops that never raise *)

Lemma bind_returns {A B : Type} (a : A) (k : A → outcome B) :
  (Returns a ≫= k) = k a.
Proof. reflexivity. Qed.

Lemma for_each_cons {A S : Type} (x : A) l (body : S → A → outcome S) s s' :
  body s x = Returns s' → for_each (x :: l) body s = for_each l body s'.
Proof. intros H. simpl. by rewrite H. Qed.

(** A loop whose body keeps an invariant and returns, returns and keeps it. *)
Lemma for_each_invariant {A S : Type} (I : S → Prop)
    (body : S → A → outcome S) (l : list A) (s : S) :
  I s →
  (∀ s x, x ∈ l → I s → ∃ s', body s x = Returns s' ∧ I s') →
  ∃ s', for_each l body s = Returns s' ∧ I s'.
Proof.
  revert s. induction l as [|x l IH]; intros s Hs Hbody.
  - by exists s.
  - destruct (Hbody s x) as (s1 & Hx & Hs1); [left|done|].
    rewrite (for_each_cons _ _ _ _ _ Hx). apply IH; [done|].
    intros s2 y Hy. apply Hbody. by right.
Qed.

Lemma for_each_scanned {S : Type} (env : Env) (name_ok : string → bool)
    (scan : S → string → outcome S) (files : list (string * string)) s :
  for_each files
    (λ results '(subdir, file),
       if name_ok file then scan results (path_join env subdir file)
       else Returns results) s =
  for_each ((λ '(subdir, file), path_join env subdir file) <$>
              filter (λ '(_, file), name_ok file = true) files) scan s.
Proof.
  revert s. induction files as [|[subdir file] files IH]; intros s; [done|].
  rewrite filter_cons. simpl. destruct (name_ok file) eqn:Hok.
  - rewrite decide_True by done. simpl.
    destruct (scan s _); simpl; [apply IH|done].
  - rewrite decide_False by (by intros ?). simpl. apply IH.
Qed.

(** ** The table-keyed scanners *)

Lemma empty_results_lookup_from (l : list string)
    (m : gmap string (list string)) k :
  fold_left (λ results s, <[s := []]> results) l m !! k =
    if decide (k ∈ l) then Some [] else m !! k.
Proof.
  revert m. induction l as [|s l IH]; intros m; cbn [fold_left].
  - case_decide as Hin; [by apply not_elem_of_nil in Hin|done].
  - rewrite IH. destruct (decide (k ∈ l)) as [Hin|Hnin].
    + rewrite decide_True; [done|by right].
    + destruct (decide (k = s)) as [->|Hne].
      * rewrite decide_True by left. apply lookup_insert_eq.
      * rewrite decide_False by (by intros [?|?]%elem_of_cons).
        by apply lookup_insert_ne.
Qed.

Lemma empty_results_lookup (l : list string) k :
  empty_results l !! k = if decide (k ∈ l) then Some [] else None.
Proof. unfold empty_results. by rewrite empty_results_lookup_from. Qed.

Lemma record_loop content file_path (search_data : list string)
    (results : gmap string (list string)) :
  (∀ s, s ∈ search_data → is_Some (results !! s)) →
  ∃ results',
    for_each search_data (record_if_in content file_path) results
      = Returns results' ∧
    ∀ k, results' !! k =
           (λ l, l ++ if py_in k content
                      then replicate (occurrences k search_data) file_path
                      else []) <$> results !! k.
Proof.
  revert results. induction search_data as [|s sd IH]; intros results Hkeys.
  - exists results. split; [done|]. intros k.
    destruct (results !! k); simpl; [|done].
    by destruct (py_in k content); rewrite app_nil_r.
  - destruct (Hkeys s) as [l Hl]; [left|].
    assert (∃ r1, record_if_in content file_path results s = Returns r1 ∧
              ∀ k, r1 !! k =
                (λ l, l ++ if py_in k content && bool_decide (k = s)
                           then [file_path] else []) <$> results !! k)
      as (r1 & Hr1 & Hlook1).
    { unfold record_if_in, dict_append.
      destruct (py_in s content) eqn:Hin.
      - rewrite Hl. eexists; split; [done|]. intros k.
        destruct (decide (k = s)) as [->|Hne].
        + by rewrite lookup_insert_eq, Hl, Hin, bool_decide_eq_true_2.
        + rewrite lookup_insert_ne by done.
          rewrite bool_decide_eq_false_2, andb_false_r by done.
          destruct (results !! k); simpl; [|done]. by rewrite app_nil_r.
      - eexists; split; [done|]. intros k.
        destruct (results !! k) eqn:Hk; simpl; [|done].
        destruct (decide (k = s)) as [->|Hne].
        + by rewrite Hin, app_nil_r.
        + by rewrite bool_decide_eq_false_2, andb_false_r, app_nil_r. }
    destruct (IH r1) as (r2 & Hr2 & Hlook2).
    { intros s' Hs'. rewrite Hlook1.
      destruct (Hkeys s') as [l' ->]; [by right|]. by eexists. }
    exists r2. split; [by rewrite (for_each_cons _ _ _ _ _ Hr1)|].
    intros k. rewrite Hlook2, Hlook1.
    destruct (results !! k) as [lk|]; simpl; [|done]. f_equal.
    rewrite <- app_assoc. f_equal. unfold occurrences. rewrite filter_cons.
    destruct (py_in k content); simpl; [|done].
    destruct (decide (s = k)) as [->|Hne].
    + by rewrite bool_decide_eq_true_2.
    + by rewrite bool_decide_eq_false_2.
Qed.

Lemma scan_file_for_list_lookup env search_data results file_path :
  (∀ s, s ∈ search_data → is_Some (results !! s)) →
  ∃ results',
    scan_file_for_list env search_data results file_path = Returns results' ∧
    ∀ k, results' !! k =
           (λ l, l ++ hits env search_data k file_path) <$> results !! k.
Proof.
  intros Hkeys. unfold scan_file_for_list, hits.
  destruct (read_text env file_path) as [content|].
  - by apply record_loop.
  - exists results. split; [done|]. intros k.
    destruct (results !! k); simpl; [|done]. by rewrite app_nil_r.
Qed.

Lemma list_scan_loop env search_data (paths : list string) results :
  (∀ s, s ∈ search_data → is_Some (results !! s)) →
  ∃ results',
    for_each paths (scan_file_for_list env search_data) results
      = Returns results' ∧
    ∀ k, results' !! k =
           (λ l, l ++ concat (map (hits env search_data k) paths))
             <$> results !! k.
Proof.
  revert results. induction paths as [|p paths IH]; intros results Hkeys.
  - exists results. split; [done|]. intros k.
    destruct (results !! k); simpl; [|done]. by rewrite app_nil_r.
  - destruct (scan_file_for_list_lookup env search_data results p Hkeys)
      as (r1 & Hr1 & Hlook1).
    destruct (IH r1) as (r2 & Hr2 & Hlook2).
    { intros s Hs. rewrite Hlook1.
      destruct (Hkeys s Hs) as [l ->]. by eexists. }
    exists r2. split; [by rewrite (for_each_cons _ _ _ _ _ Hr1)|].
    intros k. rewrite Hlook2, Hlook1.
    destruct (results !! k); simpl; [|done]. by rewrite <- app_assoc.
Qed.

(** The table-keyed scan over the files that pass [name_ok]: it returns,
    and the value of every searched string lists the files that contain
    it, in the order of the walk. *)
Lemma list_scanner_lookup env name_ok search_data root_path :
  ∃ results,
    for_each (scanned_paths env name_ok root_path)
      (scan_file_for_list env search_data) (empty_results search_data)
      = Returns results ∧
    ∀ k, results !! k =
           if decide (k ∈ search_data)
           then Some (concat (map (hits env search_data k)
                                (scanned_paths env name_ok root_path)))
           else None.
Proof.
  destruct (list_scan_loop env search_data
              (scanned_paths env name_ok root_path)
              (empty_results search_data)) as (r & Hr & Hlook).
  { intros s Hs. rewrite empty_results_lookup, decide_True by done.
    by eexists. }
  exists r. split; [done|]. intros k.
  rewrite Hlook, empty_results_lookup. by case_decide.
Qed.

Lemma find_strings_in_sql_files_eq env search_data root_path :
  find_strings_in_sql_files env search_data root_path =
    for_each (scanned_paths env sql_name_ok root_path)
      (scan_file_for_list env search_data) (empty_results search_data).
Proof. apply (for_each_scanned env sql_name_ok). Qed.

Lemma find_list_strings_in_py_files_eq env search_data root_path :
  find_list_strings_in_py_files env search_data root_path =
    for_each (scanned_paths env py_name_ok root_path)
      (scan_file_for_list env search_data) (empty_results search_data).
Proof. apply (for_each_scanned env py_name_ok). Qed.

Lemma hits_no_match env search_data k file_path :
  ¬ file_matches env k file_path → hits env search_data k file_path = [].
Proof.
  intros Hno. unfold hits.
  destruct (read_text env file_path) as [content|] eqn:Hread; [|done].
  destruct (py_in k content) eqn:Hin; [|done].
  destruct Hno. by exists content.
Qed.

Lemma concat_hits_no_match env search_data k (paths : list string) :
  (∀ p, p ∈ paths → ¬ file_matches env k p) →
  concat (map (hits env search_data k) paths) = [].
Proof.
  induction paths as [|p paths IH]; intros Hno; [done|]. simpl.
  rewrite hits_no_match by (apply Hno; left).
  apply IH. intros q Hq. apply Hno. by right.
Qed.

Lemma concat_hits_NoDup env search_data k (paths : list string) :
  (occurrences k search_data ≤ 1)%nat → NoDup paths →
  NoDup (concat (map (hits env search_data k) paths)).
Proof.
  intros Hocc. induction 1 as [|p paths Hp Hnd IH]; simpl; [constructor|].
  apply NoDup_app. split_and!; [| |done].
  - unfold hits. destruct (read_text env p); [|constructor].
    destruct (py_in k _); [|constructor].
    destruct (occurrences k search_data) as [|[|n]]; simpl;
      [constructor|apply NoDup_singleton|lia].
  - intros x Hx (q & Hq & Hxq)%elem_of_concat_map.
    assert (x = p) as ->.
    { unfold hits in Hx. destruct (read_text env p);
        [|by apply not_elem_of_nil in Hx].
      destruct (py_in k _); [|by apply not_elem_of_nil in Hx].
      by apply elem_of_replicate in Hx as [-> _]. }
    assert (p = q) as <-; [|done].
    unfold hits in Hxq. destruct (read_text env q);
      [|by apply not_elem_of_nil in Hxq].
    destruct (py_in k _); [|by apply not_elem_of_nil in Hxq].
    by apply elem_of_replicate in Hxq as [-> _].
Qed.

Lemma occurrences_NoDup k (l : list string) :
  NoDup l → (occurrences k l ≤ 1)%nat.
Proof.
  unfold occurrences. induction 1 as [|x l Hx Hnd IH]; [simpl; lia|].
  rewrite filter_cons. case_decide as Hk; [|done]. subst x.
  rewrite filter_none; [simpl; lia|]. intros y Hy ->. done.
Qed.

Lemma occurrences_pos k (l : list string) : occurrences k l ≠ 0 ↔ k ∈ l.
Proof.
  unfold occurrences. induction l as [|x l IH]; simpl.
  - split; [done|by intros ?%not_elem_of_nil].
  - rewrite filter_cons, elem_of_cons. case_decide as Hx; simpl.
    + split; [by left|done].
    + rewrite IH. split; [by right|]. by intros [->|?].
Qed.

Lemma elem_of_hits env search_data k p q :
  q ∈ hits env search_data k p ↔
  q = p ∧ k ∈ search_data ∧ file_matches env k p.
Proof.
  unfold hits, file_matches.
  destruct (read_text env p) as [content|].
  - destruct (py_in k content) eqn:Hin.
    + rewrite elem_of_replicate, occurrences_pos. split.
      * intros [-> ?]. split_and!; [done..|]. by exists content.
      * by intros (-> & ? & _).
    + split; [by intros ?%not_elem_of_nil|].
      intros (_ & _ & content' & [= <-] & ?). congruence.
  - split; [by intros ?%not_elem_of_nil|]. by intros (_ & _ & ? & ? & _).
Qed.

Lemma elem_of_concat_hits env search_data k (paths : list string) q :
  q ∈ concat (map (hits env search_data k) paths) ↔
  q ∈ paths ∧ k ∈ search_data ∧ file_matches env k q.
Proof.
  split.
  - intros (p & Hp & (-> & ? & ?)%elem_of_hits)%elem_of_concat_map. done.
  - intros (Hq & Hk & Hm). apply (elem_of_concat_map_2 _ _ q); [done|].
    by apply elem_of_hits.
Qed.

(** ** The by-stem correlator *)

Lemma stem_hit_matches env k p :
  stem_hit env k p = true ↔ file_matches env (get_filename_from_path k) p.
Proof.
  unfold stem_hit, file_matches. split.
  - destruct (read_text env p) as [content|]; [|done]. by exists content.
  - by intros (content & -> & ?).
Qed.

Lemma elem_of_add_once hit p l q :
  q ∈ add_once hit p l ↔ q ∈ l ∨ (q = p ∧ hit = true).
Proof.
  unfold add_once. destruct hit; simpl.
  - case_bool_decide as Hin; simpl.
    + split; [by left|]. by intros [?|[-> _]].
    + rewrite elem_of_app, list_elem_of_singleton.
      split; [intros [?| ->]|intros [?|[-> _]]]; auto.
  - split; [by left|]. by intros [?|[_ ?]].
Qed.

Lemma NoDup_add_once hit p l : NoDup l → NoDup (add_once hit p l).
Proof.
  intros Hl. unfold add_once. destruct hit; simpl; [|done].
  case_bool_decide as Hin; simpl; [done|].
  apply NoDup_app. split_and!; [done| |apply NoDup_singleton].
  by intros x Hx ->%list_elem_of_singleton.
Qed.

Lemma elem_of_stem_matches env k paths l q :
  q ∈ stem_matches env k paths l ↔
  q ∈ l ∨ (q ∈ paths ∧ stem_hit env k q = true).
Proof.
  unfold stem_matches. revert l.
  induction paths as [|p paths IH]; intros l; simpl.
  - split; [by left|]. by intros [?|[?%not_elem_of_nil _]].
  - rewrite IH, elem_of_add_once, elem_of_cons. split.
    + intros [[?|[-> ?]]|[? ?]]; auto.
    + intros [?|[[->|?] ?]]; auto.
Qed.

Lemma NoDup_stem_matches env k paths l :
  NoDup l → NoDup (stem_matches env k paths l).
Proof.
  unfold stem_matches. revert l.
  induction paths as [|p paths IH]; intros l Hl; simpl; [done|].
  by apply IH, NoDup_add_once.
Qed.

(** The loop over the keys, for one file that was read. *)
Lemma record_stem_loop content file_path (keys : list string)
    (results : gmap string (list string)) :
  (∀ k, k ∈ keys → is_Some (results !! k)) →
  ∃ results',
    for_each keys (record_stem_once content file_path) results
      = Returns results' ∧
    ∀ k, results' !! k =
           (λ l, add_once (bool_decide (k ∈ keys) &&
                           py_in (get_filename_from_path k) content)
                   file_path l) <$> results !! k.
Proof.
  revert results. induction keys as [|k0 keys IH]; intros results Hkeys.
  - exists results. split; [done|]. intros k.
    by destruct (results !! k).
  - destruct (Hkeys k0) as [l0 Hl0]; [left|].
    assert (∃ r1, record_stem_once content file_path results k0
                    = Returns r1 ∧
              ∀ k, r1 !! k =
                (λ l, add_once (bool_decide (k = k0) &&
                                py_in (get_filename_from_path k) content)
                        file_path l) <$> results !! k)
      as (r1 & Hr1 & Hlook1).
    { unfold record_stem_once, add_once.
      destruct (py_in (get_filename_from_path k0) content) eqn:Hin.
      - rewrite Hl0. destruct (decide (file_path ∈ l0)) as [Hold|Hnew].
        + eexists. split; [done|]. intros k.
          destruct (results !! k) as [l|] eqn:Hk; simpl; [|done].
          case_bool_decide as Hkk; simpl; [|done]. subst k.
          rewrite Hin. simplify_eq. by rewrite bool_decide_eq_true_2.
        + eexists. split; [done|]. intros k.
          destruct (decide (k = k0)) as [->|Hne].
          * rewrite lookup_insert_eq, Hl0. simpl.
            by rewrite bool_decide_eq_true_2, Hin, bool_decide_eq_false_2.
          * rewrite lookup_insert_ne by done.
            destruct (results !! k); simpl; [|done].
            by rewrite bool_decide_eq_false_2.
      - eexists. split; [done|]. intros k.
        destruct (results !! k) as [l|]; simpl; [|done].
        case_bool_decide as Hkk; simpl; [|done]. subst k. by rewrite Hin. }
    destruct (IH r1) as (r2 & Hr2 & Hlook2).
    { intros k Hk. rewrite Hlook1.
      destruct (Hkeys k) as [l ->]; [by right|]. by eexists. }
    exists r2. split; [by rewrite (for_each_cons _ _ _ _ _ Hr1)|].
    intros k. rewrite Hlook2, Hlook1.
    destruct (results !! k) as [l|]; simpl; [|done]. f_equal.
    unfold add_once.
    destruct (py_in (get_filename_from_path k) content);
      rewrite ?andb_false_r; simpl; [|done].
    rewrite !andb_true_r.
    destruct (decide (k = k0)) as [->|Hne].
    + rewrite (bool_decide_eq_true_2 (k0 = k0)) by done.
      rewrite (bool_decide_eq_true_2 (k0 ∈ k0 :: keys)) by left. simpl.
      destruct (decide (file_path ∈ l)) as [Hin|Hin].
      * rewrite (bool_decide_eq_true_2 _ Hin). simpl.
        by rewrite (bool_decide_eq_true_2 _ Hin), andb_false_r.
      * rewrite (bool_decide_eq_false_2 _ Hin). simpl.
        rewrite (bool_decide_eq_true_2 (file_path ∈ l ++ [file_path])).
        { by rewrite andb_false_r. }
        apply elem_of_app. right. left.
    + rewrite (bool_decide_eq_false_2 (k = k0)) by done. simpl.
      destruct (decide (k ∈ keys)) as [Hk|Hk].
      * rewrite (bool_decide_eq_true_2 _ Hk).
        by rewrite (bool_decide_eq_true_2 (k ∈ k0 :: keys)) by by right.
      * rewrite (bool_decide_eq_false_2 _ Hk).
        rewrite (bool_decide_eq_false_2 (k ∈ k0 :: keys)); [done|].
        by intros [?|?]%elem_of_cons.
Qed.

(** One file: every list gains the path when the file is a hit. *)
Lemma scan_file_for_stems_lookup env results file_path :
  ∃ results',
    scan_file_for_stems env results file_path = Returns results' ∧
    ∀ k, results' !! k =
           add_once (stem_hit env k file_path) file_path <$> results !! k.
Proof.
  unfold scan_file_for_stems, stem_hit.
  destruct (read_text env file_path) as [content|].
  - destruct (record_stem_loop content file_path
                (map_to_list results).*1 results) as (r & Hr & Hlook).
    { intros k ([k' l] & -> & Hkl%elem_of_map_to_list)%list_elem_of_fmap.
      by eexists. }
    exists r. split; [done|]. intros k. rewrite Hlook.
    destruct (results !! k) as [l|] eqn:Hk; simpl; [|done].
    rewrite bool_decide_eq_true_2; [done|].
    apply list_elem_of_fmap. exists (k, l). split; [done|].
    by apply elem_of_map_to_list.
  - exists results. split; [done|]. intros k. by destruct (results !! k).
Qed.

Lemma stems_scan_loop env (paths : list string) results :
  ∃ results',
    for_each paths (scan_file_for_stems env) results = Returns results' ∧
    ∀ k, results' !! k = stem_matches env k paths <$> results !! k.
Proof.
  revert results. induction paths as [|p paths IH]; intros results.
  - exists results. split; [done|]. intros k. by destruct (results !! k).
  - destruct (scan_file_for_stems_lookup env results p) as (r1 & Hr1 & Hl1).
    destruct (IH r1) as (r2 & Hr2 & Hl2).
    exists r2. split; [by rewrite (for_each_cons _ _ _ _ _ Hr1)|].
    intros k. rewrite Hl2, Hl1. by destruct (results !! k).
Qed.

Lemma elem_of_concat {A} (ls : list (list A)) (x : A) :
  x ∈ concat ls ↔ ∃ l, x ∈ l ∧ l ∈ ls.
Proof.
  induction ls as [|l0 ls IH]; simpl.
  - split; [by intros ?%not_elem_of_nil|]. by intros (l & _ & ?%not_elem_of_nil).
  - rewrite elem_of_app, IH. split.
    + intros [Hx|(l & Hx & Hl)]; [exists l0|exists l]; split; try done;
        [left|by right].
    + intros (l & Hx & [->|Hl]%elem_of_cons); [by left|].
      right. by exists l.
Qed.

Lemma elem_of_all_search_strings (search_data : gmap string (list string)) k :
  k ∈ concat (map_to_list search_data).*2 ↔
  ∃ t l, search_data !! t = Some l ∧ k ∈ l.
Proof.
  split.
  - intros Hk. apply elem_of_concat in Hk as (l & Hk & Hl).
    apply list_elem_of_fmap in Hl as ([t l'] & -> & Htl).
    apply elem_of_map_to_list in Htl. by exists t, l'.
  - intros (t & l & Htl & Hk). apply elem_of_concat. exists l.
    split; [done|]. apply list_elem_of_fmap. exists (t, l).
    split; [done|]. by apply elem_of_map_to_list.
Qed.

(** The correlator returns; a sql path is a key of the result when it is
    one of the searched paths and some script is a hit, and its list then
    holds the hits in the order of the walk, each once. *)
Lemma find_dict_strings_in_py_files_lookup env search_data root_path :
  ∃ results,
    find_dict_strings_in_py_files env search_data root_path
      = Returns results ∧
    ∀ k l, results !! k = Some l ↔
      (∃ t sqls, search_data !! t = Some sqls ∧ k ∈ sqls) ∧
      l = stem_matches env k (scanned_paths env py_name_ok root_path) [] ∧
      l ≠ [].
Proof.
  unfold find_dict_strings_in_py_files.
  rewrite (for_each_scanned env py_name_ok).
  destruct (stems_scan_loop env (scanned_paths env py_name_ok root_path)
              (empty_results (concat (map_to_list search_data).*2)))
    as (r & Hr & Hlook).
  unfold scanned_paths in Hr. rewrite Hr. eexists. split; [done|].
  intros k l. rewrite map_lookup_filter_Some, Hlook, empty_results_lookup.
  rewrite <- elem_of_all_search_strings. simpl.
  case_decide as Hk; simpl.
  - split; [by intros [[= <-] ?]|by intros (_ & -> & ?)].
  - split; [by intros [? _]|by intros [? _]].
Qed.

(** ** Strings *)

Lemma str_app_cons c s t : String c s +:+ t = String c (s +:+ t).
Proof. reflexivity. Qed.

Lemma str_app_nil_l s : "" +:+ s = s.
Proof. reflexivity. Qed.

Lemma str_app_nil_r s : s +:+ "" = s.
Proof. induction s as [|c s IH]; [done|]. by rewrite str_app_cons, IH. Qed.

Lemma str_app_assoc s t u : (s +:+ t) +:+ u = s +:+ (t +:+ u).
Proof. induction s as [|c s IH]; [done|]. by rewrite !str_app_cons, IH. Qed.

Lemma str_app_eq_nil s t : s +:+ t = "" → s = "" ∧ t = "".
Proof. destruct s; [intros H; split; [done|exact H]|discriminate]. Qed.

Lemma str_app_eq_cons s t c u :
  s +:+ t = String c u →
  (s = "" ∧ t = String c u) ∨ ∃ s', s = String c s' ∧ u = s' +:+ t.
Proof.
  destruct s as [|c' s']; [by left|]. rewrite str_app_cons.
  intros [= -> <-]. right. by exists s'.
Qed.

Lemma all_chars_app p s t :
  all_chars p (s +:+ t) = all_chars p s && all_chars p t.
Proof.
  induction s as [|c s IH]; [done|].
  by rewrite str_app_cons; simpl; rewrite IH, andb_assoc.
Qed.

Lemma has_char_app p s t :
  has_char p (s +:+ t) = has_char p s || has_char p t.
Proof.
  induction s as [|c s IH]; [done|].
  by rewrite str_app_cons; simpl; rewrite IH, orb_assoc.
Qed.

(** ** Matching by derivatives decides the language *)

Lemma lang_inv r s :
  lang r s →
  match r with
  | Void => False
  | Eps => s = ""
  | Chr p => ∃ c, s = String c "" ∧ p c = true
  | Cat r1 r2 => ∃ s1 s2, s = s1 +:+ s2 ∧ lang r1 s1 ∧ lang r2 s2
  | Alt r1 r2 => lang r1 s ∨ lang r2 s
  | Star r1 =>
      s = "" ∨ ∃ s1 s2, s = s1 +:+ s2 ∧ lang r1 s1 ∧ lang (Star r1) s2
  end.
Proof. destruct 1; eauto 10. Qed.

Lemma lang_star_cons_inv r c s :
  lang (Star r) (String c s) →
  ∃ s1 s2, s = s1 +:+ s2 ∧ lang r (String c s1) ∧ lang (Star r) s2.
Proof.
  intros H. remember (Star r) as r' eqn:Hr. remember (String c s) as w eqn:Hw.
  revert Hr Hw.
  induction H as [| | | | | |r0 s1 s2 H1 _ H2 IH2]; try discriminate.
  intros [= ->] Hw. apply str_app_eq_cons in Hw as [[-> ->]|(s' & -> & ->)].
  - by apply IH2.
  - by exists s', s2.
Qed.

Lemma nullable_lang r : nullable r = true ↔ lang r "".
Proof.
  induction r as [| |p|r1 IH1 r2 IH2|r1 IH1 r2 IH2|r IH]; simpl.
  - split; [done|by intros ?%lang_inv].
  - split; [constructor|done].
  - split; [done|]. by intros (c & ? & _)%lang_inv.
  - rewrite andb_true_iff, IH1, IH2. split.
    + intros [H1 H2]. apply (lang_cat _ _ "" "" H1 H2).
    + intros (s1 & s2 & Heq & H1 & H2)%lang_inv.
      symmetry in Heq. by apply str_app_eq_nil in Heq as [-> ->].
  - rewrite orb_true_iff, IH1, IH2. split.
    + intros [H|H]; [by apply lang_alt_l|by apply lang_alt_r].
    + by intros ?%lang_inv.
  - split; [constructor|done].
Qed.

Lemma deriv_lang c r s : lang (deriv c r) s ↔ lang r (String c s).
Proof.
  revert s.
  induction r as [| |p|r1 IH1 r2 IH2|r1 IH1 r2 IH2|r IH]; intros s; simpl.
  - split; [by intros ?%lang_inv|by intros ?%lang_inv].
  - split; [by intros ?%lang_inv|by intros ?%lang_inv].
  - destruct (p c) eqn:Hp; split.
    + intros ->%lang_inv. by constructor.
    + intros (c' & [= <- ->] & _)%lang_inv. constructor.
    + by intros ?%lang_inv.
    + intros (c' & [= <- ->] & ?)%lang_inv. congruence.
  - assert (lang (Cat (deriv c r1) r2) s ∨ (lang r1 "" ∧ lang r2 (String c s))
            ↔ lang (Cat r1 r2) (String c s)) as Hcat.
    { split.
      - intros [(s1 & s2 & -> & H1 & H2)%lang_inv|[H1 H2]].
        + apply IH1 in H1. apply (lang_cat _ _ (String c s1) s2 H1 H2).
        + apply (lang_cat _ _ "" _ H1 H2).
      - intros (s1 & s2 & Heq & H1 & H2)%lang_inv. symmetry in Heq.
        apply str_app_eq_cons in Heq as [[-> ->]|(s' & -> & ->)].
        + by right.
        + left. apply IH1 in H1. by constructor. }
    rewrite <- Hcat. destruct (nullable r1) eqn:Hn.
    + apply nullable_lang in Hn. split.
      * intros [H|H]%lang_inv; [by left|]. right. by rewrite <- IH2.
      * intros [H|[_ H]]; [by apply lang_alt_l|]. apply lang_alt_r.
        by rewrite IH2.
    + split; [by left|]. intros [H|[H _]]; [done|].
      apply nullable_lang in H. congruence.
  - split.
    + intros [H|H]%lang_inv;
        [apply lang_alt_l; by apply IH1|apply lang_alt_r; by apply IH2].
    + intros [H|H]%lang_inv;
        [apply lang_alt_l; by apply IH1|apply lang_alt_r; by apply IH2].
  - split.
    + intros (s1 & s2 & -> & H1 & H2)%lang_inv. apply IH in H1.
      apply (lang_star_cons _ (String c s1) s2 H1 H2).
    + intros (s1 & s2 & -> & H1 & H2)%lang_star_cons_inv.
      apply IH in H1. by constructor.
Qed.

Lemma re_fullmatch_lang r s : re_fullmatch r s = true ↔ lang r s.
Proof.
  revert r. induction s as [|c s IH]; intros r; simpl.
  - apply nullable_lang.
  - by rewrite IH, deriv_lang.
Qed.

(** ** The section-header pattern *)

Lemma lang_cat_iff r1 r2 s :
  lang (Cat r1 r2) s ↔ ∃ s1 s2, s = s1 +:+ s2 ∧ lang r1 s1 ∧ lang r2 s2.
Proof.
  split; [by intros ?%lang_inv|].
  intros (s1 & s2 & -> & H1 & H2). by constructor.
Qed.

Lemma lang_chr_iff p s : lang (Chr p) s ↔ ∃ c, s = String c "" ∧ p c = true.
Proof.
  split; [by intros ?%lang_inv|]. intros (c & -> & Hp). by constructor.
Qed.

Lemma lang_opt_iff r s : lang (Opt r) s ↔ lang r s ∨ s = "".
Proof.
  unfold Opt. split.
  - intros [H|H]%lang_inv; [by left|]. right. by apply lang_inv in H.
  - intros [H| ->]; [by apply lang_alt_l|apply lang_alt_r; constructor].
Qed.

Lemma lang_star_chr p s : lang (Star (Chr p)) s ↔ all_chars p s = true.
Proof.
  induction s as [|c s IH]; simpl.
  - split; [done|constructor].
  - rewrite andb_true_iff, <- IH. split.
    + intros (s1 & s2 & -> & H1 & H2)%lang_star_cons_inv.
      apply lang_inv in H1 as (c' & [= <- ->] & Hp). done.
    + intros [Hp Hs].
      apply (lang_star_cons _ (String c "") s); [by constructor|done].
Qed.

Lemma lang_plus_chr p s :
  lang (Plus (Chr p)) s ↔ s ≠ "" ∧ all_chars p s = true.
Proof.
  unfold Plus. rewrite lang_cat_iff. split.
  - intros (s1 & s2 & -> & (c & -> & Hp)%lang_inv & H2%lang_star_chr).
    rewrite str_app_cons, str_app_nil_l. split; [done|].
    simpl. by rewrite Hp, H2.
  - intros [Hne Hall]. destruct s as [|c s]; [done|]. simpl in Hall.
    apply andb_true_iff in Hall as [Hp Hs].
    exists (String c ""), s. split_and!; [done|by constructor|].
    by apply lang_star_chr.
Qed.

Lemma lang_lit w s : lang (Lit Ascii.eqb w) s ↔ s = w.
Proof.
  revert s. induction w as [|c w IH]; intros s; simpl.
  - split; [by intros ?%lang_inv|intros ->; constructor].
  - rewrite lang_cat_iff. split.
    + intros (s1 & s2 & -> & (c' & -> & Hc)%lang_inv & ->%IH).
      by apply Ascii.eqb_eq in Hc as ->.
    + intros ->. exists (String c ""), w. split_and!; [done| |by apply IH].
      constructor. apply Ascii.eqb_refl.
Qed.

Lemma lang_marker s : lang (Opt marker) s ↔ is_marker s.
Proof.
  rewrite lang_opt_iff. unfold marker, is_marker. split.
  - intros [[H%lang_lit|(c & -> & Hc)%lang_inv]%lang_inv| ->]; [auto| |auto].
    apply Ascii.eqb_eq in Hc as <-. auto.
  - intros [->|[->| ->]]; [by right|left; apply lang_alt_l; by apply lang_lit|].
    left. apply lang_alt_r. by constructor.
Qed.

Lemma lang_dollar s : lang dollar s ↔ s = "" ∨ s = String "010" "".
Proof.
  unfold dollar. rewrite lang_opt_iff. split.
  - intros [(c & -> & Hc)%lang_inv| ->]; [|by left].
    apply Ascii.eqb_eq in Hc as <-. by right.
  - intros [->| ->]; [by right|]. left. by constructor.
Qed.

Lemma lang_new_section s : lang new_section_pattern s ↔ header_shape s.
Proof.
  unfold new_section_pattern, header_shape. split.
  - intros (w0 & ? & -> & H0%lang_star_chr &
            (m1 & ? & -> & Hm1%lang_marker &
            (w1 & ? & -> & H1%lang_star_chr &
            (key & ? & -> & [Hk1 Hk2]%lang_plus_chr &
            (colon & ? & -> & (c & -> & Hc)%lang_inv &
            (w2 & ? & -> & H2%lang_star_chr &
            (m2 & ? & -> & Hm2%lang_marker &
            (w3 & d & -> & H3%lang_star_chr & Hd%lang_dollar
            )%lang_inv)%lang_inv)%lang_inv)%lang_inv)%lang_inv)%lang_inv
            )%lang_inv)%lang_inv.
    apply Ascii.eqb_eq in Hc as <-.
    exists w0, m1, w1, key, w2, m2, (w3 +:+ d). split_and!; try done.
    rewrite all_chars_app, H3. by destruct Hd as [->| ->].
  - intros (w0 & m1 & w1 & key & w2 & m2 & w3 & -> &
            H0 & Hm1 & H1 & Hk1 & Hk2 & H2 & Hm2 & H3).
    repeat (apply lang_cat; [first
      [by apply lang_star_chr|by apply lang_marker|by apply lang_plus_chr
      |by constructor]|]).
    rewrite <- (str_app_nil_r w3).
    apply lang_cat; [by apply lang_star_chr|]. apply lang_dollar. by left.
Qed.

Lemma is_terminator_shape next_line :
  is_terminator next_line = true ↔ header_shape (strip next_line).
Proof.
  unfold is_terminator. by rewrite re_fullmatch_lang, lang_new_section.
Qed.

(** *** What a header line cannot contain *)

Lemma all_chars_impl (p q : ascii → bool) s :
  (∀ c, p c = true → q c = true) → all_chars p s = true →
  all_chars q s = true.
Proof.
  intros Hpq. induction s as [|c s IH]; [done|]. simpl.
  intros [Hc Hs]%andb_true_iff. by rewrite (Hpq c Hc), IH.
Qed.

Lemma all_chars_has_char (p q : ascii → bool) s :
  (∀ c, p c = true → q c = false) → all_chars p s = true →
  has_char q s = false.
Proof.
  intros Hpq. induction s as [|c s IH]; [done|]. simpl.
  intros [Hc Hs]%andb_true_iff. by rewrite (Hpq c Hc), IH.
Qed.

Ltac by_cases_on_char c :=
  destruct c as [[] [] [] [] [] [] [] []]; vm_compute; congruence.


Lemma leading_ok_not_at c : leading_ok c = true → is_at c = false.
Proof. by_cases_on_char c. Qed.

Lemma at_not_space c : is_at c = true → py_isspace c = false.
Proof. by_cases_on_char c. Qed.

Lemma is_marker_trailing_ok m : is_marker m → all_chars trailing_ok m = true.
Proof. by intros [->|[->| ->]]. Qed.

Lemma space_trailing_ok s :
  all_chars py_isspace s = true → all_chars trailing_ok s = true.
Proof.
  apply all_chars_impl. intros c Hc. unfold trailing_ok. by rewrite Hc.
Qed.

Lemma trailing_leading_ok s :
  all_chars trailing_ok s = true → all_chars leading_ok s = true.
Proof.
  apply all_chars_impl. intros c Hc. unfold leading_ok. by rewrite Hc.
Qed.

Lemma key_leading_ok s :
  all_chars is_key_char s = true → all_chars leading_ok s = true.
Proof.
  apply all_chars_impl. intros c Hc. unfold leading_ok.
  by rewrite Hc, orb_true_r.
Qed.

(** A header line splits at its colon into a part of leading characters
    and a part of trailing characters. *)
Lemma header_shape_split s :
  header_shape s →
  ∃ a b, s = a +:+ ":" +:+ b ∧
         all_chars leading_ok a = true ∧ all_chars trailing_ok b = true.
Proof.
  intros (w0 & m1 & w1 & key & w2 & m2 & w3 & -> &
          H0 & Hm1 & H1 & Hk1 & Hk2 & H2 & Hm2 & H3).
  exists (w0 +:+ m1 +:+ w1 +:+ key), (w2 +:+ m2 +:+ w3). split_and!.
  - by rewrite !str_app_assoc.
  - rewrite !all_chars_app.
    rewrite (trailing_leading_ok w0) by by apply space_trailing_ok.
    rewrite (trailing_leading_ok m1) by by apply is_marker_trailing_ok.
    rewrite (trailing_leading_ok w1) by by apply space_trailing_ok.
    by rewrite key_leading_ok.
  - rewrite !all_chars_app.
    rewrite (space_trailing_ok w2), (space_trailing_ok w3) by done.
    by rewrite is_marker_trailing_ok.
Qed.



Lemma header_shape_no_at s : header_shape s → has_char is_at s = false.
Proof.
  intros (a & b & -> & Ha & Hb)%header_shape_split.
  rewrite !has_char_app. simpl.
  rewrite (all_chars_has_char leading_ok is_at a leading_ok_not_at Ha).
  rewrite (all_chars_has_char leading_ok is_at b leading_ok_not_at); [done|].
  by apply trailing_leading_ok.
Qed.

Lemma lstrip_has_char p s :
  (∀ c, p c = true → py_isspace c = false) →
  has_char p (lstrip s) = has_char p s.
Proof.
  intros Hp. induction s as [|c s IH]; [done|]. simpl.
  destruct (py_isspace c) eqn:Hc; [|done].
  rewrite IH. destruct (p c) eqn:Hpc; [|done].
  apply Hp in Hpc. congruence.
Qed.

Lemma rstrip_has_char p s :
  (∀ c, p c = true → py_isspace c = false) →
  has_char p (rstrip s) = has_char p s.
Proof.
  intros Hp. induction s as [|c s IH]; [done|]. simpl.
  rewrite <- IH. destruct (rstrip s) as [|c' r]; [|done].
  destruct (py_isspace c) eqn:Hc; [|done]. simpl.
  destruct (p c) eqn:Hpc; [|done]. apply Hp in Hpc. congruence.
Qed.

Lemma strip_has_char p s :
  (∀ c, p c = true → py_isspace c = false) →
  has_char p (strip s) = has_char p s.
Proof.
  intros Hp. unfold strip. by rewrite rstrip_has_char, lstrip_has_char.
Qed.

(** A line with an [@] never ends a block. *)
Lemma at_line_not_terminator line :
  has_char is_at line = true → is_terminator line = false.
Proof.
  intros Hat. apply not_true_iff_false.
  intros Hshape%is_terminator_shape%header_shape_no_at.
  rewrite strip_has_char in Hshape by apply at_not_space. congruence.
Qed.

(** ** The email pattern *)

Lemma span_app p s : (span p s).1 +:+ (span p s).2 = s.
Proof.
  induction s as [|c s IH]; [done|]. simpl.
  destruct (p c); [|done]. destruct (span p s) as [run rest]. simpl in *.
  by rewrite str_app_cons, IH.
Qed.

Lemma str_length_app s t :
  String.length (s +:+ t) = String.length s + String.length t.
Proof.
  induction s as [|c s IH]; [done|]. rewrite str_app_cons. simpl.
  by rewrite IH.
Qed.

Lemma span_length p s :
  String.length (span p s).1 + String.length (span p s).2 = String.length s.
Proof. by rewrite <- str_length_app, span_app. Qed.

(** A successful attempt consumes an [@] and leaves a shorter text. *)
Lemma email_at_Some s email rest :
  email_at s = Some (email, rest) →
  has_char is_at s = true ∧ String.length rest < String.length s.
Proof.
  unfold email_at. pose proof (span_app is_email_char s) as Happ.
  pose proof (span_length is_email_char s) as Hlen.
  destruct (span is_email_char s) as [local_part r1]. simpl in *.
  destruct local_part as [|c l]; [done|].
  destruct r1 as [|a r2]; [done|].
  destruct (Ascii.eqb_spec a "@") as [->|Hne].
  - pose proof (span_length is_email_char r2) as Hlen2.
    destruct (span is_email_char r2) as [domain r3]. simpl in *.
    destruct domain; [done|]. intros [= <- <-]. split.
    + rewrite <- Happ, str_app_cons. simpl.
      rewrite has_char_app. simpl. by rewrite !orb_true_r.
    + simpl in *. lia.
  - destruct a as [[] [] [] [] [] [] [] []]; try done.
Qed.

Lemma findall_from_has_at fuel s :
  findall_from fuel s ≠ [] → has_char is_at s = true.
Proof.
  revert s. induction fuel as [|fuel IH]; intros s; [done|].
  destruct s as [|c s]; [done|]. cbn [findall_from].
  destruct (email_at (String c s)) as [[email rest]|] eqn:Hat.
  - intros _. by apply email_at_Some in Hat as [? _].
  - intros Hne%IH. simpl. by rewrite Hne, orb_true_r.
Qed.

(** The fuel of [email_findall] never runs out. *)
Lemma findall_from_fuel fuel1 fuel2 s :
  (String.length s ≤ fuel1)%nat → (String.length s ≤ fuel2)%nat →
  findall_from fuel1 s = findall_from fuel2 s.
Proof.
  revert fuel2 s. induction fuel1 as [|fuel1 IH]; intros fuel2 s H1 H2.
  - destruct s; [|simpl in H1; lia]. by destruct fuel2.
  - destruct s as [|c s]; [by destruct fuel2|].
    destruct fuel2 as [|fuel2]; [simpl in H2; lia|].
    cbn [findall_from]. simpl in H1, H2.
    destruct (email_at (String c s)) as [[email rest]|] eqn:Hat.
    + apply email_at_Some in Hat as [_ Hlen]. simpl in Hlen.
      f_equal. apply IH; lia.
    + apply IH; lia.
Qed.

(** ** The configuration-call pattern *)

Lemma strip_prefix_length pre s rest :
  strip_prefix pre s = Some rest →
  (String.length rest ≤ String.length s)%nat.
Proof.
  revert s. induction pre as [|a pre IH]; intros [|b s]; simpl.
  - by intros [= <-].
  - intros [= <-]. simpl. lia.
  - done.
  - destruct (Ascii.eqb a b); [|done]. intros Hrest%IH. lia.
Qed.

Lemma until_quote_length s captured rest :
  until_quote s = Some (captured, rest) →
  String.length rest < String.length s.
Proof.
  revert captured. induction s as [|c s IH]; intros captured; simpl; [done|].
  destruct (is_quote c); [intros [= _ <-]; lia|].
  destruct (Ascii.eqb c "010"); [done|].
  destruct (until_quote s) as [[captured' rest']|]; [|done].
  simpl. intros [= _ <-]. specialize (IH _ eq_refl). lia.
Qed.

Lemma yaml_call_at_Some s path rest :
  yaml_call_at s = Some (path, rest) →
  String.length rest < String.length s.
Proof.
  unfold yaml_call_at.
  destruct (strip_prefix "yaml." s) as [s1|] eqn:H1; [|done].
  cbn -[strip_prefix until_quote]. apply strip_prefix_length in H1.
  assert (∀ s2, (String.length s2 ≤ String.length s1)%nat →
            match s2 with
            | String q s3 => if is_quote q then until_quote s3 else None
            | EmptyString => None
            end = Some (path, rest) →
            String.length rest < String.length s) as Htail.
  { intros [|q s3] Hlen; [done|]. destruct (is_quote q); [|done].
    intros Hq%until_quote_length. simpl in Hlen. lia. }
  destruct (strip_prefix "safe_load(open(" s1) as [s2|] eqn:H2;
    cbn -[strip_prefix until_quote].
  - apply Htail. by apply strip_prefix_length in H2.
  - destruct (strip_prefix "load(open(" s1) as [s2|] eqn:H3; [|done].
    cbn -[strip_prefix until_quote].
    apply Htail. by apply strip_prefix_length in H3.
Qed.

(** The fuel of [yaml_findall] never runs out. *)
Lemma yaml_findall_from_fuel fuel1 fuel2 s :
  (String.length s ≤ fuel1)%nat → (String.length s ≤ fuel2)%nat →
  yaml_findall_from fuel1 s = yaml_findall_from fuel2 s.
Proof.
  revert fuel2 s. induction fuel1 as [|fuel1 IH]; intros fuel2 s H1 H2.
  - destruct s; [|simpl in H1; lia]. by destruct fuel2.
  - destruct s as [|c s]; [by destruct fuel2|].
    destruct fuel2 as [|fuel2]; [simpl in H2; lia|].
    cbn [yaml_findall_from]. simpl in H1, H2.
    destruct (yaml_call_at (String c s)) as [[path rest]|] eqn:Hat.
    + apply yaml_call_at_Some in Hat. simpl in Hat.
      f_equal. apply IH; lia.
    + apply IH; lia.
Qed.

(** ** Owner blocks *)

Lemma scan_block_acc following owner_emails :
  scan_block following owner_emails =
    owner_emails ++ scan_block following [].
Proof.
  revert owner_emails.
  induction following as [|l following IH]; intros acc; simpl.
  - by rewrite app_nil_r.
  - destruct (is_terminator l); [by rewrite app_nil_r|].
    rewrite (IH (acc ++ _)), (IH (email_findall l)). by rewrite app_assoc.
Qed.

Lemma scan_lines_acc lines owner_emails :
  scan_lines lines owner_emails = owner_emails ++ scan_lines lines [].
Proof.
  revert owner_emails. induction lines as [|l lines IH]; intros acc; simpl.
  - by rewrite app_nil_r.
  - destruct (re_search owner_tag_pattern l); [|apply IH].
    rewrite (IH (scan_block lines acc)), (IH (scan_block lines [])).
    by rewrite (scan_block_acc lines acc), app_assoc.
Qed.

(** Lines that are no terminators are all harvested. *)
Lemma scan_block_app block rest owner_emails :
  (∀ l, l ∈ block → is_terminator l = false) →
  scan_block (block ++ rest) owner_emails =
    scan_block rest (owner_emails ++ concat (map email_findall block)).
Proof.
  revert owner_emails. induction block as [|l block IH]; intros acc Hno.
  - simpl. by rewrite app_nil_r.
  - simpl. rewrite (Hno l) by left. rewrite IH, app_assoc; [done|].
    intros l' Hl'. apply Hno. by right.
Qed.

Lemma scan_lines_app before lines owner_emails :
  ∃ acc, scan_lines (before ++ lines) owner_emails = scan_lines lines acc.
Proof.
  revert owner_emails. induction before as [|l before IH]; intros acc.
  - by exists acc.
  - simpl. destruct (re_search owner_tag_pattern l); apply IH.
Qed.

Lemma elem_of_sorted_set e l : e ∈ sorted_set l ↔ e ∈ l.
Proof.
  unfold sorted_set. by rewrite merge_sort_Permutation, elem_of_remove_dups.
Qed.

(** The result of [sorted(list(set(l)))] is sorted and repeats nothing. *)
Lemma sorted_set_sorted l :
  Sorted String.le (sorted_set l) ∧ NoDup (sorted_set l).
Proof.
  unfold sorted_set. split.
  - apply Sorted_merge_sort. apply _.
  - rewrite merge_sort_Permutation. apply NoDup_remove_dups.
Qed.

Lemma elem_of_extract_owners e lines :
  e ∈ extract_owners_from_lines lines ↔ e ∈ scan_lines lines [].
Proof.
  unfold extract_owners_from_lines.
  destruct (scan_lines lines []) as [|x l]; [done|].
  apply elem_of_sorted_set.
Qed.

(** An email on a line of an owner block reaches the result when no line
    between the tag and that line is a terminator. *)
Lemma block_email_extracted before tag block line rest e :
  re_search owner_tag_pattern tag = true →
  (∀ l, l ∈ block → is_terminator l = false) →
  e ∈ email_findall line →
  e ∈ extract_owners_from_lines (before ++ tag :: block ++ line :: rest).
Proof.
  intros Htag Hblock He. apply elem_of_extract_owners.
  destruct (scan_lines_app before (tag :: block ++ line :: rest) [])
    as [acc ->].
  simpl. rewrite Htag, scan_lines_acc. apply elem_of_app. left.
  rewrite scan_block_app by done. simpl.
  rewrite at_line_not_terminator.
  - rewrite scan_block_acc. apply elem_of_app. left.
    apply elem_of_app. by right.
  - apply (findall_from_has_at (String.length line)).
    intros Hnil. unfold email_findall in He. rewrite Hnil in He.
    by apply not_elem_of_nil in He.
Qed.

(** ** The component after the anchor *)

Lemma list_index_first x (pre post : list string) :
  x ∉ pre → list_index x (pre ++ x :: post) = length pre.
Proof.
  induction pre as [|y pre IH]; intros Hx; simpl.
  - by rewrite decide_True.
  - apply not_elem_of_cons in Hx as [Hne Hx].
    rewrite decide_False by done. by rewrite IH.
Qed.

Lemma subfolder_of_parts file_path anchor_folder pre post :
  path_parts file_path = pre ++ anchor_folder :: post →
  anchor_folder ∉ pre →
  get_first_subfolder_from_anchor file_path anchor_folder = head post.
Proof.
  intros Hparts Hpre. unfold get_first_subfolder_from_anchor.
  rewrite Hparts. rewrite decide_True by (apply elem_of_app; right; left).
  rewrite list_index_first by done. rewrite length_app. simpl.
  destruct post as [|x post]; simpl.
  - rewrite (proj2 (Nat.ltb_ge _ _)); [done|lia].
  - rewrite (proj2 (Nat.ltb_lt _ _)) by lia.
    replace (length pre + 1) with (length pre + 1 + 0) by lia.
    rewrite (lookup_app_r pre) by lia.
    by replace (length pre + 1 + 0 - length pre) with 1 by lia.
Qed.

Lemma subfolder_absent file_path anchor_folder :
  anchor_folder ∉ path_parts file_path →
  get_first_subfolder_from_anchor file_path anchor_folder = None.
Proof.
  intros Hno. unfold get_first_subfolder_from_anchor.
  by rewrite decide_False.
Qed.

(** The result is a component exactly when it follows the first [anchor]. *)
Lemma subfolder_Some file_path anchor_folder x :
  get_first_subfolder_from_anchor file_path anchor_folder = Some x ↔
  ∃ pre post, path_parts file_path = pre ++ anchor_folder :: x :: post ∧
              anchor_folder ∉ pre.
Proof.
  split.
  - intros Hres.
    destruct (decide (anchor_folder ∈ path_parts file_path)) as [Hin|Hno];
      [|by rewrite subfolder_absent in Hres].
    apply list_elem_of_split_l in Hin as (pre & post & Hparts & Hpre).
    rewrite (subfolder_of_parts _ _ pre post) in Hres by done.
    destruct post as [|y post]; [done|]. simpl in Hres.
    injection Hres as ->. by exists pre, post.
  - intros (pre & post & Hparts & Hpre).
    by rewrite (subfolder_of_parts _ _ pre (x :: post)).
Qed.

(** * The claims *)

Lemma concat_replicate_singleton {A} n (x : A) :
  concat (replicate n [x]) = replicate n x.
Proof. induction n as [|n IH]; [done|]. simpl. by rewrite IH. Qed.


Section JoinClaims.
Variable set_iter : gset string → list string.
Hypothesis set_iter_perm : ∀ s, set_iter s ≡ₚ elements s.
Variables sql_paths py_paths py_table_paths yaml_paths
  : gmap string (list (option string)).

Local Abbreviation report :=
  (write_to_csv_rows set_iter sql_paths py_paths py_table_paths yaml_paths).

(** C1.  Catalog completeness of the join, for any iteration order of the
    set of script paths: every table of the catalog is the first field of
    some row of the report; and a table whose SQL lookup has no usable
    entry (key absent, empty list, or null placeholders only) contributes,
    for each of its occurrences in the catalog, exactly one row, whose
    three other fields are empty strings. *)
Theorem catalog_completeness (external_table_names : list string) :
  (∀ t, t ∈ external_table_names →
     ∃ row, row ∈ report external_table_names ∧ head row = Some t) ∧
  (∀ t, py_any (get_paths sql_paths t [None]) = false →
     filter (λ row, head row = Some t) (report external_table_names) =
       replicate (occurrences t external_table_names) [t; ""; ""; ""]).
Proof.
  split.
  - intros t Ht. rewrite write_to_csv_rows_concat.
    pose proof (table_rows_nonempty set_iter set_iter_perm sql_paths
                  py_paths py_table_paths yaml_paths t) as Hne.
    destruct (table_rows _ _ _ _ _ t) as [|row rows] eqn:Hrows; [done|].
    exists row. split.
    + apply (elem_of_concat_map_2 _ _ t); [done|]. rewrite Hrows. left.
    + eapply table_rows_head. rewrite Hrows. left.
  - intros t Hany. rewrite filter_report_table, table_rows_eq, Hany. simpl.
    apply concat_replicate_singleton.
Qed.


End JoinClaims.

Lemma catalog_completeness_witness :
  (∃ row, row ∈ demo_report ∧ head row = Some "C.D") ∧
  filter (λ row, head row = Some "C.D") demo_report = [["C.D"; ""; ""; ""]].
Proof.
  destruct (catalog_completeness elements (λ s, Permutation_refl _)
              demo_sql_paths demo_py_paths demo_py_table_paths
              demo_yaml_paths ["A.B"; "C.D"; "E.F"]) as [Hsome Hone].
  split.
  - apply Hsome. right. left.
  - apply (Hone "C.D"). reflexivity.
Defined.


(** ** Owner extraction *)

(** C3, as the code has it.  On the four-line file of the example, read
    with or without a final line feed, the extraction returns the two
    addresses found on the lines that follow an owner tag, [b@x.com] and
    [c@x.com]; the address on the first line is on no scanned line. *)
Theorem owners_example_extracted (env : Env) (filepath : string) :
  read_strict env filepath = Some owners_example ∨
  read_strict env filepath = Some (owners_example +:+ String "010" "") →
  extract_owners_from_file env filepath = ["b@x.com"; "c@x.com"].
Proof.
  unfold extract_owners_from_file. intros [->| ->]; vm_compute; reflexivity.
Qed.

Lemma owners_example_extracted_witness :
  extract_owners_from_file
    {| path_exists := λ _, true; walk := λ _, []; path_join := demo_join;
       read_text := λ _, None; read_strict := λ _, Some owners_example;
       read_csv := λ _, None |} "root\dags\load.py"
    = ["b@x.com"; "c@x.com"].
Proof. apply owners_example_extracted. left. reflexivity. Defined.

(** C3, as stated, fails: the result holds two addresses, not three. *)
Lemma owners_example_not_three :
  extract_owners_from_lines (readlines owners_example)
    = ["b@x.com"; "c@x.com"] ∧
  extract_owners_from_lines (readlines owners_example)
    ≠ ["a@x.com"; "b@x.com"; "c@x.com"].
Proof. split; [vm_compute; reflexivity|vm_compute; discriminate]. Qed.




(** ** The catalog loader and the driver *)

(** Without a readable catalog the loader returns the empty dictionary,
    which has no key [external_table_names]; the driver then hands [None]
    to the SQL scanner, and the run ends on the [TypeError]. *)
Lemma main_without_catalog set_iter env input_csv_file_path
    pipeline_file_path :
  path_exists env input_csv_file_path = false ∨
  read_csv env input_csv_file_path = None →
  get_external_table_names_from_csv env input_csv_file_path = Returns ∅ ∧
  main set_iter env input_csv_file_path pipeline_file_path = Raises TypeError.
Proof.
  intros Hmissing.
  assert (get_external_table_names_from_csv env input_csv_file_path
            = Returns ∅) as Hload.
  { unfold get_external_table_names_from_csv.
    destruct Hmissing as [-> | ->]; [done|]. by destruct (negb _). }
  split; [done|]. unfold main. by rewrite Hload.
Qed.

(** C5, on the code.  With the catalog file missing, the loader returns
    the empty dictionary and the driver stops with a [TypeError] in place
    of writing an empty report. *)
Theorem missing_catalog_aborts :
  path_exists demo_env "missing.csv" = false ∧
  get_external_table_names_from_csv demo_env "missing.csv" = Returns ∅ ∧
  main elements demo_env "missing.csv" "root" = Raises TypeError.
Proof. split; [done|]. apply main_without_catalog. by left. Qed.

(** ** The scanners *)

(** C6.  The SQL scanner and the by-table correlator return, and their
    result has every search string of the input as a key: its list holds
    the scanned files that can be read and whose text contains the string,
    and is the empty list when there is no such file. *)
Theorem search_strings_are_keys (env : Env) (search_data : list string)
    (root_path : string) :
  (∃ results,
     find_strings_in_sql_files env search_data root_path = Returns results ∧
     ∀ s, s ∈ search_data →
       ∃ l, results !! s = Some l ∧
            (∀ p, p ∈ l ↔ p ∈ scanned_paths env sql_name_ok root_path ∧
                          file_matches env s p) ∧
            ((∀ p, p ∈ scanned_paths env sql_name_ok root_path →
                   ¬ file_matches env s p) → l = [])) ∧
  (∃ results,
     find_list_strings_in_py_files env search_data root_path
       = Returns results ∧
     ∀ s, s ∈ search_data →
       ∃ l, results !! s = Some l ∧
            (∀ p, p ∈ l ↔ p ∈ scanned_paths env py_name_ok root_path ∧
                          file_matches env s p) ∧
            ((∀ p, p ∈ scanned_paths env py_name_ok root_path →
                   ¬ file_matches env s p) → l = [])).
Proof.
  assert (∀ name_ok,
    ∃ results,
      for_each (scanned_paths env name_ok root_path)
        (scan_file_for_list env search_data) (empty_results search_data)
        = Returns results ∧
      ∀ s, s ∈ search_data →
        ∃ l, results !! s = Some l ∧
             (∀ p, p ∈ l ↔ p ∈ scanned_paths env name_ok root_path ∧
                           file_matches env s p) ∧
             ((∀ p, p ∈ scanned_paths env name_ok root_path →
                    ¬ file_matches env s p) → l = [])) as Hscan.
  { intros name_ok.
    destruct (list_scanner_lookup env name_ok search_data root_path)
      as (r & Hr & Hlook).
    exists r. split; [done|]. intros s Hs. eexists. split_and!.
    - by rewrite Hlook, decide_True.
    - intros p. rewrite elem_of_concat_hits.
      split; [by intros (? & _ & ?)|by intros [? ?]].
    - apply concat_hits_no_match. }
  split.
  - rewrite find_strings_in_sql_files_eq. apply Hscan.
  - rewrite find_list_strings_in_py_files_eq. apply Hscan.
Qed.

Lemma search_strings_are_keys_witness :
  ∃ results,
    find_strings_in_sql_files demo_env ["A.B"; "C.D"] "root"
      = Returns results ∧
    results !! "C.D" = Some [].
Proof.
  destruct (proj1 (search_strings_are_keys demo_env ["A.B"; "C.D"] "root"))
    as (results & Hres & Hkeys).
  exists results. split; [exact Hres|].
  destruct (Hkeys "C.D") as (l & Hl & _ & Hempty); [right; left|].
  rewrite Hl. f_equal. apply Hempty.
  intros p Hp (content & Hread & Hin).
  vm_compute in Hp. apply list_elem_of_singleton in Hp as ->.
  vm_compute in Hread. injection Hread as <-. vm_compute in Hin.
  discriminate.
Defined.

(** C7.  The by-stem correlator returns.  A scanned script that can be
    read and whose text contains the stem of a searched sql path, once or
    many times, is recorded under the key of that path, and it stands there
    exactly once.  No value list of the result holds a script path twice:
    the list of a key holds exactly the scanned scripts that can be read
    and whose text contains the stem of the key. *)
Theorem by_stem_no_repeats (env : Env)
    (search_data : gmap string (list string)) (root_path : string) :
  ∃ results,
    find_dict_strings_in_py_files env search_data root_path
      = Returns results ∧
    (∀ t sqls k p,
       search_data !! t = Some sqls → k ∈ sqls →
       p ∈ scanned_paths env py_name_ok root_path →
       file_matches env (get_filename_from_path k) p →
       ∃ l, results !! k = Some l ∧ occurrences p l = 1) ∧
    (∀ k l, results !! k = Some l →
       NoDup l ∧
       ∀ p, p ∈ l ↔
            p ∈ scanned_paths env py_name_ok root_path ∧
            file_matches env (get_filename_from_path k) p).
Proof.
  destruct (find_dict_strings_in_py_files_lookup env search_data root_path)
    as (r & Hr & Hlook).
  exists r. split; [done|]. split.
  - intros t sqls k p Ht Hk Hp Hmatch.
    set (l := stem_matches env k
                (scanned_paths env py_name_ok root_path) []).
    assert (p ∈ l) as Hin.
    { apply elem_of_stem_matches. right. split; [done|].
      by apply stem_hit_matches. }
    exists l. split.
    + apply Hlook. split_and!; [by exists t, sqls|done|].
      intros Hnil. rewrite Hnil in Hin. by apply not_elem_of_nil in Hin.
    + assert (NoDup l) as Hnd by (apply NoDup_stem_matches; constructor).
      apply (occurrences_NoDup p) in Hnd.
      apply occurrences_pos in Hin. lia.
  - intros k l (_ & -> & _)%Hlook. split.
    + apply NoDup_stem_matches. constructor.
    + intros p. rewrite elem_of_stem_matches, stem_hit_matches.
      split; [|by right]. by intros [?%not_elem_of_nil|?].
Qed.

Lemma by_stem_no_repeats_witness :
  ∃ results,
    find_dict_strings_in_py_files demo_env
      {[ "A.B" := ["root\sqls\stage.sql"] ]} "root" = Returns results ∧
    ∃ l, results !! "root\sqls\stage.sql" = Some l ∧
         occurrences "root\dags\load.py" l = 1 ∧ NoDup l.
Proof.
  destruct (by_stem_no_repeats demo_env
              {[ "A.B" := ["root\sqls\stage.sql"] ]} "root")
    as (results & Hres & Hrecorded & Hlists).
  exists results. split; [exact Hres|].
  destruct (Hrecorded "A.B" ["root\sqls\stage.sql"]
              "root\sqls\stage.sql" "root\dags\load.py")
    as (l & Hl & Honce).
  - reflexivity.
  - left.
  - vm_compute. left.
  - eexists. split; reflexivity.
  - exists l. split_and!; [exact Hl|exact Honce|apply (Hlists _ _ Hl)].
Defined.

(** C9.  Every key of the by-stem correlator's result has a non-empty
    list: a searched sql path is a key of the result exactly when some
    scanned script can be read and contains its stem, so a path whose stem
    occurs in no script is dropped and not kept with an empty list. *)
Theorem by_stem_no_empty_lists (env : Env)
    (search_data : gmap string (list string)) (root_path : string) :
  ∃ results,
    find_dict_strings_in_py_files env search_data root_path
      = Returns results ∧
    (∀ k l, results !! k = Some l → l ≠ []) ∧
    (∀ k, (∀ p, p ∈ scanned_paths env py_name_ok root_path →
                ¬ file_matches env (get_filename_from_path k) p) →
          results !! k = None) ∧
    (∀ t sqls k p,
       search_data !! t = Some sqls → k ∈ sqls →
       p ∈ scanned_paths env py_name_ok root_path →
       file_matches env (get_filename_from_path k) p →
       is_Some (results !! k)).
Proof.
  destruct (find_dict_strings_in_py_files_lookup env search_data root_path)
    as (r & Hr & Hlook).
  exists r. split; [done|]. split_and!.
  - by intros k l (_ & _ & Hne)%Hlook.
  - intros k Hno. destruct (r !! k) as [l|] eqn:Hl; [|done].
    apply Hlook in Hl as (_ & -> & Hne). destruct Hne.
    destruct (stem_matches _ _ _ _) as [|p l] eqn:Hm; [done|].
    assert (p ∈ stem_matches env k
                  (scanned_paths env py_name_ok root_path) []) as Hp
      by (rewrite Hm; left).
    apply elem_of_stem_matches in Hp as [?%not_elem_of_nil|[Hp Hhit]];
      [done|].
    apply stem_hit_matches in Hhit. by destruct (Hno p Hp).
  - intros t sqls k p Ht Hk Hp Hmatch. eexists. apply Hlook.
    split_and!; [by exists t, sqls|done|].
    intros Hnil.
    assert (p ∈ stem_matches env k
                  (scanned_paths env py_name_ok root_path) []) as Hin.
    { apply elem_of_stem_matches. right. split; [done|].
      by apply stem_hit_matches. }
    rewrite Hnil in Hin. by apply not_elem_of_nil in Hin.
Qed.

Lemma by_stem_no_empty_lists_witness :
  ∃ results,
    find_dict_strings_in_py_files demo_env
      {[ "C.D" := ["root\sqls\none.sql"] ]} "root" = Returns results ∧
    results !! "root\sqls\none.sql" = None.
Proof.
  destruct (by_stem_no_empty_lists demo_env
              {[ "C.D" := ["root\sqls\none.sql"] ]} "root")
    as (results & Hres & _ & Hdropped & _).
  exists results. split; [exact Hres|]. apply Hdropped.
  intros p Hp (content & Hread & Hin).
  vm_compute in Hp.
  apply elem_of_cons in Hp as [->|Hp].
  - vm_compute in Hread. injection Hread as <-. vm_compute in Hin.
    discriminate.
  - apply list_elem_of_singleton in Hp as ->. vm_compute in Hread.
    discriminate.
Defined.

(** C10, as stated, fails: with a table name listed twice, a script found
    once by the walk is recorded twice under that name. *)
Lemma by_table_repeats_with_repeated_name :
  NoDup (scanned_paths demo_env py_name_ok "root") ∧
  find_list_strings_in_py_files demo_env ["A.B"; "A.B"] "root" =
    Returns {[ "A.B" := ["root\dags\load.py"; "root\dags\load.py"] ]} ∧
  ¬ NoDup ["root\dags\load.py"; "root\dags\load.py"].
Proof.
  split_and!.
  - vm_compute. apply NoDup_cons. split; [|apply NoDup_singleton].
    by intros [=]%list_elem_of_singleton.
  - vm_compute. reflexivity.
  - intros [Hin _]%NoDup_cons. apply Hin. left.
Qed.

(** C10, as the code has it.  When the walk yields each script path once
    and the search list holds each string once, the by-table correlator
    returns; a scanned script that can be read and whose text contains a
    table name of the list, once or many times, stands exactly once in the
    list of that name; and no value list of the result holds a path twice:
    the list of a table name holds exactly the scanned scripts that can be
    read and whose text contains the name, each of them once. *)
Theorem by_table_no_repeats (env : Env) (search_data : list string)
    (root_path : string) :
  NoDup search_data →
  NoDup (scanned_paths env py_name_ok root_path) →
  ∃ results,
    find_list_strings_in_py_files env search_data root_path
      = Returns results ∧
    (∀ k p, k ∈ search_data →
       p ∈ scanned_paths env py_name_ok root_path →
       file_matches env k p →
       ∃ l, results !! k = Some l ∧ occurrences p l = 1) ∧
    (∀ k l, results !! k = Some l →
       NoDup l ∧
       ∀ p, p ∈ l ↔
            p ∈ scanned_paths env py_name_ok root_path ∧
            file_matches env k p).
Proof.
  intros Hdata Hpaths. rewrite find_list_strings_in_py_files_eq.
  destruct (list_scanner_lookup env py_name_ok search_data root_path)
    as (r & Hr & Hlook).
  exists r. split; [done|].
  assert (∀ k, k ∈ search_data →
            NoDup (concat (map (hits env search_data k)
                             (scanned_paths env py_name_ok root_path))))
    as Hnd.
  { intros k _. apply concat_hits_NoDup; [by apply occurrences_NoDup|done]. }
  split.
  - intros k p Hk Hp Hmatch. eexists. split.
    + by rewrite Hlook, decide_True.
    + specialize (Hnd k Hk). apply (occurrences_NoDup p) in Hnd.
      assert (p ∈ concat (map (hits env search_data k)
                            (scanned_paths env py_name_ok root_path)))
        as Hin%occurrences_pos by by apply elem_of_concat_hits.
      lia.
  - intros k l. rewrite Hlook.
    case_decide as Hk; [|done]. intros [= <-]. split; [by apply Hnd|].
    intros p. rewrite elem_of_concat_hits.
    split; [by intros (? & _ & ?)|]. by intros [? ?].
Qed.

Lemma by_table_no_repeats_witness :
  ∃ results,
    find_list_strings_in_py_files demo_env ["A.B"; "C.D"] "root"
      = Returns results ∧
    (∃ l, results !! "A.B" = Some l ∧
          occurrences "root\dags\load.py" l = 1) ∧
    ∀ k l, results !! k = Some l → NoDup l.
Proof.
  destruct (by_table_no_repeats demo_env ["A.B"; "C.D"] "root")
    as (results & Hres & Hrecorded & Hlists).
  - apply NoDup_cons. split; [|apply NoDup_singleton].
    by intros [=]%list_elem_of_singleton.
  - vm_compute. apply NoDup_cons. split; [|apply NoDup_singleton].
    by intros [=]%list_elem_of_singleton.
  - exists results. split; [exact Hres|]. split.
    + apply Hrecorded.
      * left.
      * vm_compute. left.
      * eexists. split; reflexivity.
    + intros k l Hl. apply (Hlists k l Hl).
Defined.

(** ** The owning subfolder *)

(** C8.  With the components of a path as [WindowsPath] gives them,
    [get_first_subfolder_from_anchor] returns a component exactly when that
    component follows the first component [pipeline] of the path; it
    returns nothing when no component is [pipeline] and when the first
    [pipeline] is the last component; on the example path, written with
    single or with doubled separators, it returns [sales]. *)
Theorem subfolder_after_pipeline :
  (∀ file_path x,
     get_first_subfolder_from_anchor file_path default_anchor = Some x ↔
     ∃ pre post, path_parts file_path = pre ++ "pipeline" :: x :: post ∧
                 "pipeline" ∉ pre) ∧
  (∀ file_path, "pipeline" ∉ path_parts file_path →
     get_first_subfolder_from_anchor file_path default_anchor = None) ∧
  (∀ file_path pre, path_parts file_path = pre ++ ["pipeline"] →
     "pipeline" ∉ pre →
     get_first_subfolder_from_anchor file_path default_anchor = None) ∧
  get_first_subfolder_from_anchor "C:\x\pipeline\sales\dags\a.py"
    default_anchor = Some "sales" ∧
  get_first_subfolder_from_anchor
    "C:\x\pipeline\sales\dags\a.py" default_anchor = Some "sales".
Proof.
  split_and!.
  - intros file_path x. apply subfolder_Some.
  - intros file_path. apply subfolder_absent.
  - intros file_path pre Hparts Hpre.
    by rewrite (subfolder_of_parts _ _ pre []).
  - vm_compute. reflexivity.
  - vm_compute. reflexivity.
Qed.

Lemma subfolder_after_pipeline_witness :
  get_first_subfolder_from_anchor "pipeline\stock\dags\x.py" default_anchor
    = Some "stock" ∧
  get_first_subfolder_from_anchor "C:\repo\pipeline" default_anchor = None ∧
  get_first_subfolder_from_anchor "C:\repo\dags\x.py" default_anchor = None.
Proof.
  destruct subfolder_after_pipeline as (Hsome & Habsent & Hlast & _ & _).
  split_and!.
  - apply Hsome. exists [], ["dags"; "x.py"]. split; [reflexivity|].
    apply not_elem_of_nil.
  - apply (Hlast _ ["C:\"; "repo"]); [reflexivity|].
    vm_compute. by intros [[=]|[[=]|[]%not_elem_of_nil]%elem_of_cons]%elem_of_cons.
  - apply Habsent. vm_compute.
    intros Hin. repeat (apply elem_of_cons in Hin as [[=]|Hin]).
    by apply not_elem_of_nil in Hin.
Defined.

(** * Further properties of the code *)

(** ** The rows of the join *)

Lemma py_any_elem (l : list (option string)) s :
  Some s ∈ l → s ≠ "" → py_any l = true.
Proof.
  intros Hin Hne. unfold py_any. apply existsb_exists. exists (Some s).
  split; [by apply list_elem_of_In|]. simpl.
  by destruct (String.eqb_spec s "").
Qed.

Section JoinRows.
Variable set_iter : gset string → list string.
Hypothesis set_iter_perm : ∀ s, set_iter s ≡ₚ elements s.
Variables sql_paths py_paths py_table_paths yaml_paths
  : gmap string (list (option string)).

Local Abbreviation all_py_paths := (all_py_paths py_paths py_table_paths).
Local Abbreviation py_rows := (py_rows yaml_paths).
Local Abbreviation sql_rows :=
  (sql_rows set_iter py_paths py_table_paths yaml_paths).
Local Abbreviation table_rows :=
  (table_rows set_iter sql_paths py_paths py_table_paths yaml_paths).
Local Abbreviation report :=
  (write_to_csv_rows set_iter sql_paths py_paths py_table_paths yaml_paths).

Lemma elem_of_all_py_paths t sp py :
  py ∈ all_py_paths t sp ↔
  Some py ∈ get_paths py_paths sp [] ∨
  Some py ∈ get_paths py_table_paths t [].
Proof.
  unfold all_py_paths, not_none.
  rewrite elem_of_list_to_set, list_elem_of_omap. split.
  - intros ([py'|] & Hin & [= <-]). by apply elem_of_app in Hin.
  - intros Hin. exists (Some py). split; [by apply elem_of_app|done].
Qed.

Lemma elem_of_set_iter (s : gset string) x : x ∈ set_iter s ↔ x ∈ s.
Proof. by rewrite set_iter_perm, elem_of_elements. Qed.

Lemma py_rows_fields t sp py row :
  row ∈ py_rows t sp py →
  ∃ y, row = [t; sp; py; y] ∧
       (y = "" ∨ Some y ∈ get_paths yaml_paths py [None]).
Proof.
  rewrite py_rows_eq. destruct (negb _).
  - intros ->%list_elem_of_singleton. exists "". by split; [|left].
  - unfold yaml_rows. intros ([y|] & -> & Hy)%list_elem_of_fmap.
    + exists y. by split; [|right].
    + exists "". by split; [|left].
Qed.

Lemma sql_rows_fields t sp row :
  row ∈ sql_rows t (Some sp) →
  ∃ py y, row = [t; sp; py; y] ∧
    ((py = "" ∧ y = "") ∨
     (py ∈ all_py_paths t sp ∧
      (y = "" ∨ Some y ∈ get_paths yaml_paths py [None]))).
Proof.
  rewrite sql_rows_eq. destruct (decide _) as [Hempty|Hsome].
  - intros ->%list_elem_of_singleton. exists "", "". split; [done|by left].
  - intros (py & Hpy & (y & -> & Hy)%py_rows_fields)%elem_of_concat_map.
    exists py, y. split; [done|]. right. split; [|done].
    by apply elem_of_set_iter.
Qed.

Lemma table_rows_fields t row :
  row ∈ table_rows t →
  ∃ sp py y, row = [t; sp; py; y] ∧
    ((sp = "" ∧ py = "" ∧ y = "") ∨
     (Some sp ∈ get_paths sql_paths t [None] ∧
      ((py = "" ∧ y = "") ∨
       (py ∈ all_py_paths t sp ∧
        (y = "" ∨ Some y ∈ get_paths yaml_paths py [None]))))).
Proof.
  rewrite table_rows_eq. destruct (negb _).
  - intros ->%list_elem_of_singleton. exists "", "", "". split; [done|].
    by left.
  - intros ([sp|] & Hsp & Hrow)%elem_of_concat_map.
    + apply sql_rows_fields in Hrow as (py & y & -> & Hpy).
      exists sp, py, y. split; [done|]. by right.
    + apply list_elem_of_singleton in Hrow as ->.
      exists "", "", "". split; [done|]. by left.
Qed.

Lemma table_rows_length t row : row ∈ table_rows t → length row = 4.
Proof.
  rewrite table_rows_eq. destruct (negb _).
  - by intros ->%list_elem_of_singleton.
  - intros ([sp|] & _ & Hrow)%elem_of_concat_map.
    + rewrite sql_rows_eq in Hrow. destruct (decide _).
      * by apply list_elem_of_singleton in Hrow as ->.
      * apply elem_of_concat_map in Hrow as (py & _ & Hrow).
        rewrite py_rows_eq in Hrow. destruct (negb _).
        -- by apply list_elem_of_singleton in Hrow as ->.
        -- unfold yaml_rows in Hrow.
           by apply list_elem_of_fmap in Hrow as (y & -> & _).
    + by apply list_elem_of_singleton in Hrow as ->.
Qed.

(** X1.  Every row of the join has exactly four fields, so reading the
    written rows back with [output_csv_to_list], which drops the header
    and keeps the rows of four fields, returns all of them in order. *)
Theorem join_rows_survive_rereading (external_table_names : list string) :
  (∀ row, row ∈ report external_table_names → length row = 4) ∧
  (∀ header,
     output_csv_to_list (header :: report external_table_names)
       = Returns (report external_table_names)).
Proof.
  assert (∀ row, row ∈ report external_table_names → length row = 4)
    as Hfour.
  { intros row. rewrite write_to_csv_rows_concat.
    intros (t & _ & Hrow)%elem_of_concat_map.
    by apply table_rows_length in Hrow. }
  split; [done|]. intros header. simpl. f_equal. by apply filter_all.
Qed.

(** X2.  The join invents nothing.  Every row of the report is
    [table, sql, script, config] for a table of the catalog; either the
    three paths are empty, or the sql path is an entry of the table's SQL
    lookup and either the script and config are empty, or the script is an
    entry of the by-stem lookup of the sql path or of the by-table lookup
    of the table, and the config is empty or an entry of the script's
    config lookup. *)
Theorem join_rows_come_from_lookups (external_table_names : list string)
    (row : list string) :
  row ∈ report external_table_names →
  ∃ t sp py y,
    row = [t; sp; py; y] ∧ t ∈ external_table_names ∧
    ((sp = "" ∧ py = "" ∧ y = "") ∨
     (Some sp ∈ get_paths sql_paths t [None] ∧
      ((py = "" ∧ y = "") ∨
       ((Some py ∈ get_paths py_paths sp [] ∨
         Some py ∈ get_paths py_table_paths t []) ∧
        (y = "" ∨ Some y ∈ get_paths yaml_paths py [None]))))).
Proof.
  rewrite write_to_csv_rows_concat.
  intros (t & Ht & (sp & py & y & -> & Hrow)%table_rows_fields
         )%elem_of_concat_map.
  exists t, sp, py, y. split_and!; [done..|].
  destruct Hrow as [?|[Hsp [?|[Hpy Hy]]]]; [by left|right..].
  - split; [done|]. by left.
  - split; [done|]. right. split; [|done]. by apply elem_of_all_py_paths.
Qed.

(** X3.  The join misses nothing.  For a table of the catalog, a non-empty
    sql path of its SQL lookup and a script of the by-stem lookup of that
    path or of the by-table lookup of the table: every non-empty config of
    the script's lookup gives the row [table, sql, script, config], and a
    script whose lookup has no usable config gives the row
    [table, sql, script, '']. *)
Theorem join_rows_cover_lookups (external_table_names : list string)
    (t sp py : string) :
  t ∈ external_table_names →
  Some sp ∈ get_paths sql_paths t [None] → sp ≠ "" →
  Some py ∈ get_paths py_paths sp [] ∨
  Some py ∈ get_paths py_table_paths t [] →
  (∀ y, Some y ∈ get_paths yaml_paths py [None] → y ≠ "" →
        [t; sp; py; y] ∈ report external_table_names) ∧
  (py_any (get_paths yaml_paths py [None]) = false →
   [t; sp; py; ""] ∈ report external_table_names).
Proof.
  intros Ht Hsp Hne Hpy%elem_of_all_py_paths.
  assert (∀ row, row ∈ py_rows t sp py → row ∈ report external_table_names)
    as Hrows.
  { intros row Hrow. rewrite write_to_csv_rows_concat.
    apply (elem_of_concat_map_2 _ _ t); [done|].
    rewrite table_rows_eq, (py_any_elem _ sp) by done. simpl.
    apply (elem_of_concat_map_2 _ _ (Some sp)); [done|].
    rewrite sql_rows_eq. rewrite decide_False by set_solver.
    apply (elem_of_concat_map_2 _ _ py); [|done].
    by apply elem_of_set_iter. }
  split.
  - intros y Hy Hyne. apply Hrows. rewrite py_rows_eq.
    rewrite (py_any_elem _ y) by done. simpl. unfold yaml_rows.
    apply list_elem_of_fmap. by exists (Some y).
  - intros Hnone. apply Hrows. rewrite py_rows_eq, Hnone. simpl. left.
Qed.

(** X4.  The report of a catalog made of two parts is the report of the
    first part followed by the report of the second: the rows follow the
    order of the catalog and no table changes the rows of another. *)
Theorem join_of_concatenated_catalogs (first second : list string) :
  write_to_csv_rows set_iter sql_paths py_paths py_table_paths yaml_paths
    (first ++ second) =
  report first ++ report second.
Proof.
  by rewrite !write_to_csv_rows_concat, map_app, concat_app.
Qed.

End JoinRows.

Lemma join_rows_come_from_lookups_witness :
  ∃ t sp py y,
    ["A.B"; "root\sqls\stage.sql"; "root\dags\load.py"; "conf/b.yaml"]
      = [t; sp; py; y] ∧
    t ∈ ["A.B"; "C.D"; "E.F"] ∧
    ((sp = "" ∧ py = "" ∧ y = "") ∨
     (Some sp ∈ get_paths demo_sql_paths t [None] ∧
      ((py = "" ∧ y = "") ∨
       ((Some py ∈ get_paths demo_py_paths sp [] ∨
         Some py ∈ get_paths demo_py_table_paths t []) ∧
        (y = "" ∨ Some y ∈ get_paths demo_yaml_paths py [None]))))).
Proof.
  apply (join_rows_come_from_lookups elements (λ s, Permutation_refl _)).
  change (["A.B"; "root\sqls\stage.sql"; "root\dags\load.py"; "conf/b.yaml"]
            ∈ demo_report).
  rewrite demo_report_rows. right. left.
Defined.

Lemma join_rows_cover_lookups_witness :
  ["A.B"; "root\sqls\stage.sql"; "root\dags\load.py"; "conf/b.yaml"]
    ∈ demo_report.
Proof.
  apply (proj1 (join_rows_cover_lookups elements (λ s, Permutation_refl _)
                  demo_sql_paths demo_py_paths demo_py_table_paths
                  demo_yaml_paths ["A.B"; "C.D"; "E.F"]
                  "A.B" "root\sqls\stage.sql" "root\dags\load.py"
                  ltac:(left) ltac:(vm_compute; left) ltac:(discriminate)
                  ltac:(left; vm_compute; left))).
  - vm_compute. right. left.
  - discriminate.
Defined.

(** ** The scanners *)

Lemma elem_of_scanned_paths env name_ok root_path p :
  p ∈ scanned_paths env name_ok root_path ↔
  ∃ subdir file,
    (subdir, file) ∈ walked_files env root_path ∧
    name_ok file = true ∧ p = path_join env subdir file.
Proof.
  unfold scanned_paths. rewrite list_elem_of_fmap. split.
  - intros ([subdir file] & -> & [Hok Hin]%list_elem_of_filter).
    by exists subdir, file.
  - intros (subdir & file & Hin & Hok & ->). exists (subdir, file).
    split; [done|]. by apply list_elem_of_filter.
Qed.

Lemma hits_file_hit env search_data k p :
  hits env search_data k p =
    if file_hit env k p then replicate (occurrences k search_data) p else [].
Proof. unfold hits, file_hit. by destruct (read_text env p). Qed.

Lemma concat_hits_filter env search_data k (paths : list string) :
  concat (map (hits env search_data k) paths) =
    concat (map (replicate (occurrences k search_data))
              (filter (λ p, file_hit env k p = true) paths)).
Proof.
  induction paths as [|p paths IH]; [done|]. simpl.
  rewrite hits_file_hit, IH. destruct (file_hit env k p) eqn:Hhit.
  - by rewrite filter_cons_True.
  - rewrite filter_cons_False; [done|]. by rewrite Hhit.
Qed.

(** X5.  The SQL scanner returns a map whose keys are the search strings
    and no others, and every path it lists is a walked file whose name ends
    in [.sql] and is not [table_list.sql]. *)
Theorem sql_scanner_keys_and_files (env : Env) (search_data : list string)
    (root_path : string) :
  ∃ results,
    find_strings_in_sql_files env search_data root_path = Returns results ∧
    (∀ k, is_Some (results !! k) ↔ k ∈ search_data) ∧
    (∀ k l p, results !! k = Some l → p ∈ l →
       ∃ subdir file,
         (subdir, file) ∈ walked_files env root_path ∧
         p = path_join env subdir file ∧
         endswith file ".sql" = true ∧ file ≠ "table_list.sql").
Proof.
  rewrite find_strings_in_sql_files_eq.
  destruct (list_scanner_lookup env sql_name_ok search_data root_path)
    as (r & Hr & Hlook).
  exists r. split; [done|]. split.
  - intros k. rewrite Hlook. case_decide as Hk.
    + split; [done|]. intros _. by eexists.
    + split; [by intros [? ?]|done].
  - intros k l p. rewrite Hlook. case_decide; [|done]. intros [= <-].
    intros [Hp _]%elem_of_concat_hits.
    apply elem_of_scanned_paths in Hp as (subdir & file & Hin & Hok & ->).
    exists subdir, file. unfold sql_name_ok in Hok.
    apply andb_true_iff in Hok as [Hsql Hname].
    split_and!; [done..|]. intros ->. by rewrite String.eqb_refl in Hname.
Qed.

(** X6.  The list the table-keyed scanners build for a search string holds
    the scanned files that can be read and contain the string, in the
    order of the walk, each as many times in a row as the string occurs in
    the search list. *)
Theorem table_scanners_list_in_walk_order (env : Env)
    (search_data : list string) (root_path : string) :
  (∃ results,
     find_strings_in_sql_files env search_data root_path = Returns results ∧
     ∀ k, k ∈ search_data →
       results !! k =
         Some (concat (map (replicate (occurrences k search_data))
                 (filter (λ p, file_hit env k p = true)
                    (scanned_paths env sql_name_ok root_path))))) ∧
  (∃ results,
     find_list_strings_in_py_files env search_data root_path
       = Returns results ∧
     ∀ k, k ∈ search_data →
       results !! k =
         Some (concat (map (replicate (occurrences k search_data))
                 (filter (λ p, file_hit env k p = true)
                    (scanned_paths env py_name_ok root_path))))).
Proof.
  split.
  - rewrite find_strings_in_sql_files_eq.
    destruct (list_scanner_lookup env sql_name_ok search_data root_path)
      as (r & Hr & Hlook).
    exists r. split; [done|]. intros k Hk.
    by rewrite Hlook, decide_True, concat_hits_filter.
  - rewrite find_list_strings_in_py_files_eq.
    destruct (list_scanner_lookup env py_name_ok search_data root_path)
      as (r & Hr & Hlook).
    exists r. split; [done|]. intros k Hk.
    by rewrite Hlook, decide_True, concat_hits_filter.
Qed.

Lemma table_scanners_list_in_walk_order_witness :
  ∃ results,
    find_list_strings_in_py_files demo_env ["A.B"; "A.B"; "C.D"] "root"
      = Returns results ∧
    results !! "A.B" = Some ["root\dags\load.py"; "root\dags\load.py"].
Proof.
  destruct (proj2 (table_scanners_list_in_walk_order demo_env
                     ["A.B"; "A.B"; "C.D"] "root"))
    as (results & Hres & Hlists).
  exists results. split; [exact Hres|].
  rewrite (Hlists "A.B") by left. vm_compute. reflexivity.
Defined.

Lemma stem_matches_filter env k (paths : list string) l :
  NoDup paths → (∀ p, p ∈ paths → p ∉ l) →
  stem_matches env k paths l =
    l ++ filter (λ p, stem_hit env k p = true) paths.
Proof.
  unfold stem_matches. intros Hnd. revert l.
  induction Hnd as [|p paths Hp Hnd IH]; intros l Hfresh; simpl.
  - by rewrite app_nil_r.
  - unfold add_once at 2.
    rewrite (bool_decide_eq_false_2 (p ∈ l)) by (apply Hfresh; left).
    simpl. rewrite andb_true_r. destruct (stem_hit env k p) eqn:Hhit.
    + rewrite filter_cons_True by done. rewrite IH, <- app_assoc; [done|].
      intros q Hq [Hql| ->%list_elem_of_singleton]%elem_of_app; [|done].
      apply (Hfresh q); [by right|done].
    + rewrite filter_cons_False by (by rewrite Hhit). apply IH.
      intros q Hq. apply Hfresh. by right.
Qed.

(** X7.  When the walk yields each script path once, the list the by-stem
    correlator keeps for a sql path is made of the scanned scripts that
    can be read and contain the stem of that path, in the order of the
    walk; and every key of the result is a path of the searched map. *)
Theorem by_stem_lists_follow_walk (env : Env)
    (search_data : gmap string (list string)) (root_path : string) :
  NoDup (scanned_paths env py_name_ok root_path) →
  ∃ results,
    find_dict_strings_in_py_files env search_data root_path
      = Returns results ∧
    ∀ k l, results !! k = Some l →
      (∃ t sqls, search_data !! t = Some sqls ∧ k ∈ sqls) ∧
      l = filter (λ p, stem_hit env k p = true)
            (scanned_paths env py_name_ok root_path).
Proof.
  intros Hnd.
  destruct (find_dict_strings_in_py_files_lookup env search_data root_path)
    as (r & Hr & Hlook).
  exists r. split; [done|]. intros k l (Hk & -> & _)%Hlook.
  split; [done|]. rewrite stem_matches_filter; [done..|].
  by intros p _ ?%not_elem_of_nil.
Qed.

Lemma by_stem_lists_follow_walk_witness :
  ∃ results,
    find_dict_strings_in_py_files demo_env
      {[ "A.B" := ["root\sqls\stage.sql"] ]} "root" = Returns results ∧
    ∀ k l, results !! k = Some l →
      (∃ t sqls, ({[ "A.B" := ["root\sqls\stage.sql"] ]}
                    : gmap string (list string)) !! t = Some sqls ∧
                 k ∈ sqls) ∧
      l = filter (λ p, stem_hit demo_env k p = true)
            (scanned_paths demo_env py_name_ok "root").
Proof.
  apply by_stem_lists_follow_walk.
  vm_compute. apply NoDup_cons. split; [|apply NoDup_singleton].
  by intros [=]%list_elem_of_singleton.
Defined.

(** ** The configuration scanner *)

Lemma find_yaml_paths_lookup_from env (py_files : list string)
    (m : gmap string (list string)) k :
  fold_left
    (λ extracted_paths_dict py_file,
       <[py_file := match read_strict env py_file with
                    | Some content => yaml_findall content
                    | None => []
                    end]> extracted_paths_dict)
    py_files m !! k =
  if decide (k ∈ py_files) then Some (yaml_paths_of env k) else m !! k.
Proof.
  revert m. induction py_files as [|f files IH]; intros m; cbn [fold_left].
  - case_decide as Hin; [by apply not_elem_of_nil in Hin|done].
  - rewrite IH. destruct (decide (k ∈ files)) as [Hin|Hnin].
    + rewrite decide_True; [done|by right].
    + destruct (decide (k = f)) as [->|Hne].
      * rewrite decide_True by left. by rewrite lookup_insert_eq.
      * rewrite decide_False by (by intros [?|?]%elem_of_cons).
        by apply lookup_insert_ne.
Qed.

(** X8.  The configuration scanner gives every script of its input a key
    and no other key; a script that cannot be read keeps the empty list,
    a script that can be read has the paths found in its text. *)
Theorem yaml_scanner_keys (env : Env) (py_files : list string) :
  (∀ f, is_Some (find_yaml_paths_in_files env py_files !! f) ↔
        f ∈ py_files) ∧
  (∀ f, f ∈ py_files → read_strict env f = None →
        find_yaml_paths_in_files env py_files !! f = Some []) ∧
  (∀ f content, f ∈ py_files → read_strict env f = Some content →
        find_yaml_paths_in_files env py_files !! f
          = Some (yaml_findall content)).
Proof.
  unfold find_yaml_paths_in_files. split_and!.
  - intros f. rewrite find_yaml_paths_lookup_from. case_decide as Hf.
    + split; [done|]. intros _. by eexists.
    + split; [by intros [? ?]|done].
  - intros f Hf Hread. rewrite find_yaml_paths_lookup_from, decide_True by done.
    unfold yaml_paths_of. by rewrite Hread.
  - intros f content Hf Hread.
    rewrite find_yaml_paths_lookup_from, decide_True by done.
    unfold yaml_paths_of. by rewrite Hread.
Qed.

Lemma yaml_scanner_keys_witness :
  find_yaml_paths_in_files demo_env ["root\dags\load.py"; "root\gone.py"]
    !! "root\gone.py" = Some [] ∧
  find_yaml_paths_in_files demo_env ["root\dags\load.py"; "root\gone.py"]
    !! "root\dags\load.py" = Some ["conf/a.yaml"].
Proof.
  destruct (yaml_scanner_keys demo_env ["root\dags\load.py"; "root\gone.py"])
    as (_ & Hnone & Hsome).
  split.
  - apply Hnone; [right; left|reflexivity].
  - rewrite (Hsome "root\dags\load.py" _ ltac:(left) eq_refl).
    vm_compute. reflexivity.
Defined.

Lemma strip_prefix_app pre s rest :
  strip_prefix pre s = Some rest → s = pre +:+ rest.
Proof.
  revert s. induction pre as [|a pre IH]; intros [|b s]; simpl.
  - by intros [= <-].
  - by intros [= <-].
  - done.
  - destruct (Ascii.eqb_spec a b) as [->|]; [|done].
    intros ->%IH. by rewrite str_app_cons.
Qed.

Lemma until_quote_spec s captured rest :
  until_quote s = Some (captured, rest) →
  ∃ q, s = captured +:+ String q rest ∧ is_quote q = true ∧
       has_char is_quote captured = false ∧
       has_char is_line_feed captured = false.
Proof.
  revert captured. induction s as [|c s IH]; intros captured; simpl; [done|].
  destruct (is_quote c) eqn:Hq.
  - intros [= <- <-]. by exists c.
  - destruct (Ascii.eqb c "010") eqn:Hlf; [done|].
    destruct (until_quote s) as [[captured' rest']|]; [|done].
    simpl. intros [= <- <-].
    destruct (IH _ eq_refl) as (q & -> & Hq' & Hnq & Hnl).
    exists q. split_and!; [done..| |]; simpl.
    + by rewrite Hq, Hnq.
    + unfold is_line_feed at 1. by rewrite Hlf, Hnl.
Qed.

Lemma yaml_call_at_spec s path rest :
  yaml_call_at s = Some (path, rest) →
  ∃ x q0 q1,
    s = x +:+ ("load(open(" +:+ String q0 path) +:+ String q1 rest ∧
    is_quote q0 = true ∧ is_quote q1 = true ∧
    has_char is_quote path = false ∧ has_char is_line_feed path = false.
Proof.
  unfold yaml_call_at.
  destruct (strip_prefix "yaml." s) as [s1|] eqn:H1; [|done].
  cbn -[strip_prefix until_quote]. apply strip_prefix_app in H1 as ->.
  assert (∀ s2,
    match s2 with
    | String q s3 => if is_quote q then until_quote s3 else None
    | EmptyString => None
    end = Some (path, rest) →
    ∃ q0 q1, s2 = String q0 (path +:+ String q1 rest) ∧
      is_quote q0 = true ∧ is_quote q1 = true ∧
      has_char is_quote path = false ∧
      has_char is_line_feed path = false) as Htail.
  { intros [|q0 s3]; [done|]. destruct (is_quote q0) eqn:Hq0; [|done].
    intros (q1 & -> & ? & ? & ?)%until_quote_spec. by exists q0, q1. }
  destruct (strip_prefix "safe_load(open(" s1) as [s2|] eqn:H2;
    cbn -[strip_prefix until_quote].
  - apply strip_prefix_app in H2 as ->.
    intros (q0 & q1 & -> & ? & ? & ? & ?)%Htail.
    exists "yaml.safe_", q0, q1. split; [reflexivity|done].
  - destruct (strip_prefix "load(open(" s1) as [s2|] eqn:H3; [|done].
    cbn -[strip_prefix until_quote]. apply strip_prefix_app in H3 as ->.
    intros (q0 & q1 & -> & ? & ? & ? & ?)%Htail.
    exists "yaml.", q0, q1. split; [reflexivity|done].
Qed.

Lemma quoted_after_open_suffix a s p :
  quoted_after_open s p → quoted_after_open (a +:+ s) p.
Proof.
  intros (before & after & q0 & q1 & -> & ? & ?).
  exists (a +:+ before), after, q0, q1.
  by rewrite (str_app_assoc a before).
Qed.

Lemma yaml_findall_from_spec fuel s p :
  p ∈ yaml_findall_from fuel s →
  quoted_after_open s p ∧
  has_char is_quote p = false ∧ has_char is_line_feed p = false.
Proof.
  revert s. induction fuel as [|fuel IH]; intros s;
    [by intros ?%not_elem_of_nil|].
  destruct s as [|c s]; [by intros ?%not_elem_of_nil|].
  cbn [yaml_findall_from].
  destruct (yaml_call_at (String c s)) as [[path rest]|] eqn:Hat.
  - apply yaml_call_at_spec in Hat
      as (x & q0 & q1 & Heq & Hq0 & Hq1 & Hnq & Hnl).
    intros [->|Hp]%elem_of_cons.
    + split; [|done]. rewrite Heq. by exists x, rest, q0, q1.
    + apply IH in Hp as [Hp ?]. split; [|done]. rewrite Heq.
      do 2 apply quoted_after_open_suffix.
      by apply (quoted_after_open_suffix (String q1 "") rest).
  - intros [Hp ?]%IH. split; [|done].
    by apply (quoted_after_open_suffix (String c "")).
Qed.

(** X9.  Every configuration path extracted from the text of a script
    stands in that text between two quotes, the first of them right after
    [load(open(], and holds no quote and no line feed. *)
Theorem yaml_paths_are_quoted_arguments (content p : string) :
  p ∈ yaml_findall content →
  quoted_after_open content p ∧
  has_char is_quote p = false ∧ has_char is_line_feed p = false.
Proof. apply yaml_findall_from_spec. Qed.

Lemma yaml_paths_are_quoted_arguments_witness :
  quoted_after_open "cfg = yaml.safe_load(open('conf/a.yaml'))" "conf/a.yaml"
  ∧ has_char is_quote "conf/a.yaml" = false
  ∧ has_char is_line_feed "conf/a.yaml" = false.
Proof.
  apply yaml_paths_are_quoted_arguments. vm_compute. left.
Defined.

(** ** The addresses of the owner extraction *)

Lemma span_all p s : all_chars p (span p s).1 = true.
Proof.
  induction s as [|c s IH]; [done|]. simpl.
  destruct (p c) eqn:Hp; [|done].
  destruct (span p s) as [run rest]. simpl in *. by rewrite Hp, IH.
Qed.

Lemma email_at_spec s email rest :
  email_at s = Some (email, rest) → s = email +:+ rest ∧ email_shape email.
Proof.
  unfold email_at. pose proof (span_app is_email_char s) as Happ.
  pose proof (span_all is_email_char s) as Hall.
  destruct (span is_email_char s) as [local_part r1]. simpl in *.
  destruct local_part as [|c l]; [done|].
  destruct r1 as [|a r2]; [done|].
  destruct (Ascii.eqb_spec a "@") as [->|Hne].
  - pose proof (span_app is_email_char r2) as Happ2.
    pose proof (span_all is_email_char r2) as Hall2.
    destruct (span is_email_char r2) as [domain r3]. simpl in *.
    destruct domain as [|d domain]; [done|]. intros [= <- <-]. split.
    + rewrite <- Happ, <- Happ2. by rewrite str_app_assoc.
    + exists (String c l), (String d domain). split_and!; done.
  - destruct a as [[] [] [] [] [] [] [] []]; try done.
Qed.

Lemma part_of_suffix a e s : part_of e s → part_of e (a +:+ s).
Proof.
  intros (before & after & ->). exists (a +:+ before), after.
  by rewrite (str_app_assoc a before).
Qed.

Lemma findall_from_spec fuel s e :
  e ∈ findall_from fuel s → part_of e s ∧ email_shape e.
Proof.
  revert s. induction fuel as [|fuel IH]; intros s;
    [by intros ?%not_elem_of_nil|].
  destruct s as [|c s]; [by intros ?%not_elem_of_nil|].
  cbn [findall_from].
  destruct (email_at (String c s)) as [[email rest]|] eqn:Hat.
  - apply email_at_spec in Hat as [Heq Hshape].
    intros [->|He]%elem_of_cons.
    + split; [|done]. rewrite Heq. by exists "", rest.
    + apply IH in He as [He ?]. split; [|done]. rewrite Heq.
      by apply part_of_suffix.
  - intros [He ?]%IH. split; [|done].
    by apply (part_of_suffix (String c "")).
Qed.

Lemma scan_block_elem following e :
  e ∈ scan_block following [] →
  ∃ block line rest,
    following = block ++ line :: rest ∧
    (∀ l, l ∈ block → is_terminator l = false) ∧
    is_terminator line = false ∧ e ∈ email_findall line.
Proof.
  induction following as [|l following IH]; simpl;
    [by intros ?%not_elem_of_nil|].
  destruct (is_terminator l) eqn:Hterm; [by intros ?%not_elem_of_nil|].
  rewrite scan_block_acc. intros [He|He]%elem_of_app.
  - exists [], l, following. split_and!; [done| |done..].
    by intros ? ?%not_elem_of_nil.
  - destruct (IH He) as (block & line & rest & -> & Hblock & Hline & Hin).
    exists (l :: block), line, rest. split_and!; [done| |done..].
    intros l' [->|Hl']%elem_of_cons; [done|by apply Hblock].
Qed.

Lemma scan_lines_elem lines e :
  e ∈ scan_lines lines [] →
  ∃ before tag following,
    lines = before ++ tag :: following ∧
    re_search owner_tag_pattern tag = true ∧
    e ∈ scan_block following [].
Proof.
  induction lines as [|l lines IH]; simpl; [by intros ?%not_elem_of_nil|].
  assert (e ∈ scan_lines lines [] →
          ∃ before tag following,
            l :: lines = before ++ tag :: following ∧
            re_search owner_tag_pattern tag = true ∧
            e ∈ scan_block following []) as Hlater.
  { intros (before & tag & following & -> & Htag & He)%IH.
    by exists (l :: before), tag, following. }
  destruct (re_search owner_tag_pattern l) eqn:Htag; [|done].
  rewrite scan_lines_acc. intros [He|He]%elem_of_app; [|by apply Hlater].
  by exists [], l, lines.
Qed.

Lemma scan_lines_no_tag lines owner_emails :
  (∀ l, l ∈ lines → re_search owner_tag_pattern l = false) →
  scan_lines lines owner_emails = owner_emails.
Proof.
  induction lines as [|l lines IH]; intros Hno; [done|]. simpl.
  rewrite (Hno l) by left. apply IH. intros l' Hl'. apply Hno. by right.
Qed.

(** X12.  An address is in the result of the extraction exactly when it
    is found on a line that comes after a line with an owner tag, with no
    terminator among the lines from the one after the tag to the line of
    the address. *)
Theorem owner_address_iff_in_open_block (lines : list string) (e : string) :
  e ∈ extract_owners_from_lines lines ↔
  ∃ before tag block line rest,
    lines = before ++ tag :: block ++ line :: rest ∧
    re_search owner_tag_pattern tag = true ∧
    (∀ l, l ∈ block → is_terminator l = false) ∧
    is_terminator line = false ∧
    e ∈ email_findall line.
Proof.
  split.
  - intros (before & tag & following & -> & Htag & He
           )%elem_of_extract_owners%scan_lines_elem.
    apply scan_block_elem in He
      as (block & line & rest & -> & Hblock & Hline & He).
    by exists before, tag, block, line, rest.
  - intros (before & tag & block & line & rest & -> & Htag & Hblock & _ & He).
    by apply block_email_extracted.
Qed.

(** X10.  Every address the extraction returns for a file is a part of a
    line of that file and is made of a non-empty local part, an [@] and a
    non-empty domain, both of word characters, dots and hyphens. *)
Theorem owner_addresses_are_well_formed (env : Env) (filepath e : string) :
  e ∈ extract_owners_from_file env filepath →
  email_shape e ∧
  ∃ text line,
    read_strict env filepath = Some text ∧
    line ∈ readlines text ∧ part_of e line.
Proof.
  unfold extract_owners_from_file.
  destruct (read_strict env filepath) as [text|];
    [|by intros ?%not_elem_of_nil].
  intros (before & tag & following & Hlines & _ & He
         )%elem_of_extract_owners%scan_lines_elem.
  apply scan_block_elem in He as (block & line & rest & -> & _ & _ & He).
  apply findall_from_spec in He as [Hpart Hshape]. split; [done|].
  exists text, line. split_and!; [done| |done].
  rewrite Hlines. apply elem_of_app. right. right.
  apply elem_of_app. right. left.
Qed.

Lemma owner_addresses_are_well_formed_witness :
  email_shape "b@x.com" ∧
  ∃ text line,
    read_strict
      {| path_exists := λ _, true; walk := λ _, []; path_join := demo_join;
         read_text := λ _, None; read_strict := λ _, Some owners_example;
         read_csv := λ _, None |} "owners.md" = Some text ∧
    line ∈ readlines text ∧ part_of "b@x.com" line.
Proof.
  apply owner_addresses_are_well_formed. vm_compute. left.
Defined.

(** X11.  The list the extraction returns for a file is sorted and holds
    no address twice; it is empty when the file cannot be read and when no
    line of the file has an owner tag. *)
Theorem owners_sorted_without_repeats (env : Env) (filepath : string) :
  Sorted String.le (extract_owners_from_file env filepath) ∧
  NoDup (extract_owners_from_file env filepath) ∧
  (read_strict env filepath = None →
   extract_owners_from_file env filepath = []) ∧
  (∀ text, read_strict env filepath = Some text →
     (∀ line, line ∈ readlines text →
        re_search owner_tag_pattern line = false) →
     extract_owners_from_file env filepath = []).
Proof.
  unfold extract_owners_from_file, extract_owners_from_lines.
  destruct (read_strict env filepath) as [text|]; split_and!; try done;
    try constructor.
  - destruct (scan_lines _ _); [constructor|apply sorted_set_sorted].
  - destruct (scan_lines _ _); [constructor|apply sorted_set_sorted].
  - intros text' [= <-] Hno. by rewrite scan_lines_no_tag.
Qed.

Lemma sorted_set_nonempty l : l ≠ [] → sorted_set l ≠ [].
Proof.
  intros Hl Hnil. destruct l as [|x l]; [done|].
  assert (x ∈ sorted_set (x :: l)) as Hx by (apply elem_of_sorted_set; left).
  rewrite Hnil in Hx. by apply not_elem_of_nil in Hx.
Qed.

Lemma extract_owners_step env filepath
    (owner_results : gmap string (list string)) :
  match read_strict env filepath with
  | None => owner_results
  | Some text =>
      match scan_lines (readlines text) [] with
      | [] => owner_results
      | file_owners => <[filepath := sorted_set file_owners]> owner_results
      end
  end =
  match extract_owners_from_file env filepath with
  | [] => owner_results
  | owners => <[filepath := owners]> owner_results
  end.
Proof.
  unfold extract_owners_from_file, extract_owners_from_lines.
  destruct (read_strict env filepath) as [text|]; [|done].
  destruct (scan_lines (readlines text) []) as [|e l] eqn:Hscan; [done|].
  pose proof (sorted_set_nonempty (e :: l)) as Hne.
  destruct (sorted_set (e :: l)); [by destruct Hne|done].
Qed.

Lemma extract_owners_lookup_from env (files : list string)
    (m : gmap string (list string)) k :
  fold_left
    (λ owner_results filepath,
       match read_strict env filepath with
       | None => owner_results
       | Some text =>
           match scan_lines (readlines text) [] with
           | [] => owner_results
           | file_owners =>
               <[filepath := sorted_set file_owners]> owner_results
           end
       end) files m !! k =
  if decide (k ∈ files ∧ extract_owners_from_file env k ≠ [])
  then Some (extract_owners_from_file env k)
  else m !! k.
Proof.
  revert m. induction files as [|f files IH]; intros m; cbn [fold_left].
  - rewrite decide_False; [done|]. by intros [?%not_elem_of_nil _].
  - rewrite IH, extract_owners_step.
    destruct (decide (k ∈ files ∧ extract_owners_from_file env k ≠ []))
      as [[Hin Hne]|Hnot].
    + rewrite decide_True; [done|]. split; [by right|done].
    + destruct (decide (k = f)) as [->|Hkf].
      * destruct (extract_owners_from_file env f) as [|e l] eqn:Hf.
        -- rewrite decide_False; [done|]. by intros [_ ?].
        -- rewrite decide_True by (split; [left|done]).
           apply lookup_insert_eq.
      * rewrite decide_False.
        -- destruct (extract_owners_from_file env f); [done|].
           by apply lookup_insert_ne.
        -- intros [[?|?]%elem_of_cons ?]; [done|]. by apply Hnot.
Qed.

(** X13.  The many-file extraction agrees with the one-file extraction:
    a path is a key of its result exactly when it is listed in the input
    and the one-file extraction finds an address in it, and its value is
    then what the one-file extraction returns. *)
Theorem extract_owners_agrees_with_single (env : Env)
    (files_dict : gmap string (list string)) (filepath : string)
    (owners : list string) :
  extract_owners env files_dict !! filepath = Some owners ↔
  (∃ group files, files_dict !! group = Some files ∧ filepath ∈ files) ∧
  owners = extract_owners_from_file env filepath ∧ owners ≠ [].
Proof.
  unfold extract_owners. rewrite extract_owners_lookup_from.
  rewrite <- elem_of_all_search_strings. case_decide as Hk.
  - split; [intros [= <-]; by destruct Hk|by intros (_ & -> & _)].
  - split; [done|]. intros (Hin & -> & Hne). by destruct Hk.
Qed.

(** ** Paths *)

Lemma lstrip_head s :
  lstrip s = "" ∨ ∃ c r, lstrip s = String c r ∧ py_isspace c = false.
Proof.
  induction s as [|c s IH]; [by left|]. simpl.
  destruct (py_isspace c) eqn:Hc; [done|]. right. by exists c, s.
Qed.

Lemma rstrip_head c r :
  py_isspace c = false → ∃ r', rstrip (String c r) = String c r'.
Proof.
  intros Hc. simpl. rewrite Hc. destruct (rstrip r); by eexists.
Qed.

Lemma rstrip_idem s : rstrip (rstrip s) = rstrip s.
Proof.
  induction s as [|c s IH]; [done|]. simpl.
  destruct (rstrip s) as [|d r] eqn:Hr.
  - destruct (py_isspace c) eqn:Hc; [done|]. simpl. by rewrite Hc.
  - change (rstrip (String c (String d r))) with
      (match rstrip (String d r) with
       | "" => if py_isspace c then "" else String c ""
       | r' => String c r'
       end).
    by rewrite IH.
Qed.

Lemma strip_lstrip s : lstrip (strip s) = strip s.
Proof.
  unfold strip. destruct (lstrip_head s) as [->|(c & r & -> & Hc)]; [done|].
  destruct (rstrip_head c r Hc) as [r' ->]. simpl. by rewrite Hc.
Qed.

Lemma strip_idem s : strip (strip s) = strip s.
Proof.
  unfold strip at 1. rewrite strip_lstrip. unfold strip. apply rstrip_idem.
Qed.

Lemma rstrip_suffix a b : rstrip (a +:+ b) = a +:+ b → b ≠ "" → rstrip b = b.
Proof.
  induction a as [|c a IH]; intros Heq Hb; [by rewrite str_app_nil_l in Heq|].
  rewrite str_app_cons in Heq. simpl in Heq.
  destruct (rstrip (a +:+ b)) as [|d r] eqn:Hr.
  - destruct (py_isspace c); [done|]. injection Heq as Heq.
    symmetry in Heq. by apply str_app_eq_nil in Heq as [_ ?].
  - injection Heq as Heq. by apply IH.
Qed.

Lemma substring_long s k m m' :
  (String.length s - k ≤ m)%nat → (String.length s - k ≤ m')%nat →
  String.substring k m s = String.substring k m' s.
Proof.
  revert k m m'. induction s as [|c s IH]; intros k m m' Hm Hm'.
  - by destruct k, m, m'.
  - destruct k as [|k]; simpl in *.
    + destruct m as [|m]; [lia|]. destruct m' as [|m']; [lia|].
      f_equal. apply IH; lia.
    + apply IH; lia.
Qed.

Lemma slice_from_0 s : slice_from 0 s = s.
Proof.
  unfold slice_from. induction s as [|c s IH]; [done|]. simpl. by rewrite IH.
Qed.

Lemma slice_from_S k c s : slice_from (S k) (String c s) = slice_from k s.
Proof. unfold slice_from. simpl. apply substring_long; lia. Qed.

Lemma prefix_cons a t c s :
  String.prefix (String a t) (String c s) = true →
  a = c ∧ String.prefix t s = true.
Proof. cbn [String.prefix]. by destruct (ascii_dec a c). Qed.

(** [str.index]: the result is the place of the first occurrence. *)
Lemma index_Some t s i :
  String.index 0 t s = Some i →
  ∃ before, s = before +:+ slice_from i s ∧
            String.prefix t (slice_from i s) = true ∧
            ∀ a b, s = a +:+ b → String.prefix t b = true →
                   (String.length before ≤ String.length a)%nat.
Proof.
  revert i. induction s as [|c s IH]; intros i; cbn [String.index].
  - destruct t; [|done]. intros [= <-]. exists "". split_and!; [done..|].
    intros; simpl; lia.
  - destruct (String.prefix t (String c s)) eqn:Hpre.
    + intros [= <-]. exists "". rewrite slice_from_0.
      split_and!; [done..|]. intros; simpl; lia.
    + destruct (String.index 0 t s) as [j|] eqn:Hj; [|done].
      intros [= <-]. destruct (IH j eq_refl) as (before & Heq & Hp & Hfirst).
      exists (String c before). rewrite slice_from_S, str_app_cons.
      split_and!; [by rewrite <- Heq|done|].
      intros a b Hab Hb. destruct a as [|c' a].
      * rewrite str_app_nil_l in Hab. subst b. congruence.
      * rewrite str_app_cons in Hab. injection Hab as _ Hab.
        simpl. specialize (Hfirst a b Hab Hb). lia.
Qed.

Lemma index_None t s : String.index 0 t s = None ↔ py_in t s = false.
Proof.
  induction s as [|c s IH]; cbn [String.index py_in].
  - destruct t; simpl; split; done.
  - destruct (String.prefix t (String c s)); simpl; [done|].
    rewrite <- IH. by destruct (String.index 0 t s).
Qed.

Lemma index_prefix t s :
  s ≠ "" → String.prefix t s = true → String.index 0 t s = Some 0.
Proof. intros Hs Hp. destruct s; [done|]. cbn [String.index]. by rewrite Hp. Qed.

(** X14.  The relative form of a path is the trimmed path cut at the first
    occurrence of the text [\pipeline]: what is cut off ends before any
    occurrence, and the result begins with that text.  A trimmed path
    without the text is returned whole.  Formatting a formatted path changes
    nothing. *)
Theorem relative_path_cut_at_first_anchor (filepath : string) :
  (∃ before,
     strip filepath = before +:+ format_path_to_relative filepath ∧
     ∀ a b, strip filepath = a +:+ b → String.prefix target_str b = true →
            (String.length before ≤ String.length a)%nat) ∧
  (if py_in target_str (strip filepath)
   then String.prefix target_str (format_path_to_relative filepath) = true
   else format_path_to_relative filepath = strip filepath) ∧
  format_path_to_relative (format_path_to_relative filepath)
    = format_path_to_relative filepath.
Proof.
  unfold format_path_to_relative.
  destruct (String.index 0 target_str (strip filepath)) as [i|] eqn:Hi.
  - destruct (index_Some _ _ _ Hi) as (before & Heq & Hp & Hfirst).
    assert (py_in target_str (strip filepath) = true) as ->.
    { apply not_false_iff_true. rewrite <- index_None. congruence. }
    set (result := slice_from i (strip filepath)) in *.
    split_and!; [by exists before|done|].
    assert (∃ tail, result = String "\" tail) as [tail Htail].
    { destruct result as [|c tail]; [done|].
      unfold target_str in Hp. apply prefix_cons in Hp as [<- _].
      by eexists. }
    assert (strip result = result) as Hstrip.
    { unfold strip. replace (lstrip result) with result by (by rewrite Htail).
      apply (rstrip_suffix before); [|by rewrite Htail].
      rewrite <- Heq. unfold strip. apply rstrip_idem. }
    rewrite Hstrip, index_prefix; [apply slice_from_0|by rewrite Htail|done].
  - assert (py_in target_str (strip filepath) = false) as ->
      by by apply index_None.
    split_and!; [|done|].
    + exists "". split; [done|]. intros; simpl; lia.
    + by rewrite strip_idem, Hi.
Qed.

Lemma substring_no_char p s k m :
  has_char p s = false → has_char p (String.substring k m s) = false.
Proof.
  revert k m. induction s as [|c s IH]; intros k m Hs.
  - by destruct k, m.
  - simpl in Hs. apply orb_false_iff in Hs as [Hc Hs].
    destruct k as [|k]; simpl; [|by apply IH].
    destruct m as [|m]; [done|]. simpl. rewrite Hc. by apply IH.
Qed.

Lemma replace_char_no_altsep s :
  has_char (λ c, Ascii.eqb c altsep) (replace_char altsep sep s) = false.
Proof.
  induction s as [|c s IH]; [done|]. unfold replace_char in *. simpl.
  rewrite IH. by destruct (Ascii.eqb c altsep) eqn:Hc; rewrite ?Hc.
Qed.

Lemma split_on_parts p a s x :
  x ∈ split_on a s → has_char p s = false →
  has_char (λ c, Ascii.eqb c a || p c) x = false.
Proof.
  revert x. induction s as [|c s IH]; intros x; simpl.
  - by intros ->%list_elem_of_singleton.
  - intros Hx [Hc Hs]%orb_false_iff.
    destruct (Ascii.eqb c a) eqn:Hca.
    + apply elem_of_cons in Hx as [->|Hx]; [done|by apply IH].
    + destruct (split_on a s) as [|part parts].
      * apply list_elem_of_singleton in Hx as ->. simpl. by rewrite Hca, Hc.
      * apply elem_of_cons in Hx as [->|Hx].
        -- simpl. rewrite Hca, Hc. apply IH; [left|done].
        -- apply IH; [by right|done].
Qed.

Lemma splitroot_rest p s :
  has_char p s = false → has_char p (splitroot s).2 = false.
Proof.
  intros Hs. unfold splitroot, slice_from.
  repeat case_match; simpl; try done; by apply substring_no_char.
Qed.

(** The components after the anchor are names: not empty, not the single
    dot, and without a separator. *)
Lemma parse_path_tail path x :
  x ∈ (parse_path path).2 →
  x ≠ "" ∧ x ≠ "." ∧ has_char is_sep x = false.
Proof.
  destruct path as [|c path]; [by intros ?%not_elem_of_nil|].
  unfold parse_path.
  pose proof (splitroot_rest (λ c, Ascii.eqb c altsep) _
                (replace_char_no_altsep (String c path))) as Hrel.
  destruct (splitroot (replace_char altsep sep (String c path)))
    as [[drv root] rel]. simpl in Hrel. cbn [snd].
  intros [[? ?] Hx]%list_elem_of_filter. split_and!; [done..|].
  by apply (split_on_parts _ sep rel).
Qed.

Lemma path_parts_tail path :
  path_parts path = (parse_path path).2 ∨
  ∃ anchor, path_parts path = anchor :: (parse_path path).2.
Proof.
  unfold path_parts. destruct (parse_path path) as [[drv root] tail].
  destruct (drv +:+ root); [by left|right; by eexists].
Qed.

Lemma rfind_dot_Some s i :
  rfind_dot s = Some i →
  ∃ ext, s = slice_to i s +:+ String "." ext ∧
         has_char is_dot ext = false ∧
         String.length s = i + 1 + String.length ext.
Proof.
  revert i. induction s as [|c s IH]; intros i; [done|]. simpl.
  destruct (rfind_dot s) as [j|] eqn:Hj.
  - intros [= <-]. destruct (IH j eq_refl) as (ext & Heq & Hext & Hlen).
    exists ext. unfold slice_to in *. simpl. rewrite str_app_cons, <- Heq.
    split_and!; [done..|lia].
  - destruct (Ascii.eqb_spec c ".") as [->|?]; [|done]. intros [= <-].
    exists s. split_and!; [done| |done].
    clear IH. induction s as [|d s IH]; [done|]. simpl in *.
    destruct (rfind_dot s); [done|].
    destruct (Ascii.eqb d ".") eqn:Hd; [done|]. unfold is_dot at 1.
    rewrite Hd. by apply IH.
Qed.

(** X15.  The name [get_filename_from_path] returns holds no separator.
    It is empty, or it is the last component of the path, whole or without
    its last extension: a dot followed by one or more characters other
    than a dot. *)
Theorem stem_is_last_component_without_extension (filepath : string) :
  has_char is_sep (get_filename_from_path filepath) = false ∧
  (get_filename_from_path filepath = "" ∨
   ∃ name suffix,
     last (path_parts filepath) = Some name ∧
     name = get_filename_from_path filepath +:+ suffix ∧
     (suffix = "" ∨
      ∃ ext, suffix = String "." ext ∧ ext ≠ "" ∧
             has_char is_dot ext = false)).
Proof.
  unfold get_filename_from_path, path_stem.
  pose proof (parse_path_tail filepath) as Htail.
  pose proof (path_parts_tail filepath) as Hparts.
  destruct (parse_path filepath) as [[drv root] tail]. cbn [snd] in *.
  destruct (last tail) as [name|] eqn:Hlast; cbn [from_option id];
    [|split; [done|by left]].
  destruct (Htail name) as (Hne & _ & Hsep);
    [by apply last_Some_elem_of|].
  assert (last (path_parts filepath) = Some name) as Hname.
  { destruct Hparts as [->|[anchor ->]]; [done|].
    rewrite last_cons. by rewrite Hlast. }
  destruct (rfind_dot name) as [i|] eqn:Hdot.
  - destruct (rfind_dot_Some _ _ Hdot) as (ext & Heq & Hext & Hlen).
    destruct (Nat.ltb 0 i && Nat.ltb i (String.length name - 1)) eqn:Hi.
    + split; [by apply substring_no_char|]. right.
      exists name, (String "." ext). split_and!; [done..|]. right.
      exists ext. split_and!; [done| |done].
      apply andb_true_iff in Hi as [_ Hi%Nat.ltb_lt].
      intros ->. simpl in Hlen. lia.
    + split; [done|]. right. exists name, "".
      rewrite str_app_nil_r. split_and!; [done..|by left].
  - split; [done|]. right. exists name, "".
    rewrite str_app_nil_r. split_and!; [done..|by left].
Qed.

(** X16.  The folder [get_first_subfolder_from_anchor] returns is one
    name of the path: it is not empty, it is not the single dot and it
    holds no separator. *)
Theorem subfolder_is_one_name (file_path anchor_folder x : string) :
  get_first_subfolder_from_anchor file_path anchor_folder = Some x →
  x ≠ "" ∧ x ≠ "." ∧ has_char is_sep x = false.
Proof.
  intros (pre & post & Hparts & _)%subfolder_Some.
  apply (parse_path_tail file_path).
  destruct (path_parts_tail file_path) as [Heq|[anchor Heq]];
    rewrite Heq in Hparts.
  - rewrite Hparts. apply elem_of_app. right. right. left.
  - destruct pre as [|y pre]; simpl in Hparts; injection Hparts as _ ->.
    + left.
    + apply elem_of_app. right. right. left.
Qed.

Lemma subfolder_is_one_name_witness :
  "sales" ≠ "" ∧ "sales" ≠ "." ∧ has_char is_sep "sales" = false.
Proof.
  apply (subfolder_is_one_name "C:/x/pipeline/sales/dags/a.py" "pipeline").
  reflexivity.
Defined.

(** ** The run times *)

Lemma create_dict_loop_trimmed fieldnames rows
    (dag_executions : gmap string string) :
  (∀ k v, dag_executions !! k = Some v →
          k ≠ "" ∧ strip k = k ∧ strip v = v) →
  ∀ k v, create_dict_loop fieldnames rows dag_executions !! k = Some v →
         k ≠ "" ∧ strip k = k ∧ strip v = v.
Proof.
  revert dag_executions.
  induction rows as [|row rows IH]; intros m Hm; [done|].
  destruct row as [|field row]; [by apply IH|]. cbn [create_dict_loop].
  destruct (row_get _ "dag_id") as [raw_dag_id|]; [|done].
  destruct (row_get _ "execution_datetime") as [raw_datetime|]; [|done].
  apply IH. destruct (String.eqb_spec (strip raw_dag_id) ""); [done|].
  intros k v [[<- <-]|[_ Hk]]%lookup_insert_Some; [|by apply Hm].
  by rewrite !strip_idem.
Qed.

(** X17.  A run-time file that cannot be opened gives the empty
    dictionary, without an exception.  Whatever the file holds, the keys of
    the dictionary are trimmed and not empty and its values are trimmed. *)
Theorem run_times_are_trimmed (env : Env) (file_path : string) :
  (read_csv env file_path = None → create_dict_from_csv env file_path = ∅) ∧
  (∀ k v, create_dict_from_csv env file_path !! k = Some v →
          k ≠ "" ∧ strip k = k ∧ strip v = v).
Proof.
  unfold create_dict_from_csv. split; [by intros ->|].
  destruct (read_csv env file_path) as [[|fieldnames rows]|]; [done| |done].
  by apply create_dict_loop_trimmed.
Qed.

Lemma dict_row_two id time extra :
  dict_row dag_header (id :: time :: extra) =
    <["execution_datetime" := Some time]> (<["dag_id" := Some id]> ∅).
Proof.
  unfold dict_row, dag_header. cbn [zip_with length drop fold_left].
  by rewrite drop_nil.
Qed.

Lemma dict_row_one id :
  dict_row dag_header [id] =
    <["execution_datetime" := None]> (<["dag_id" := Some id]> ∅).
Proof. reflexivity. Qed.

Lemma create_dict_loop_two id time extra rows
    (dag_executions : gmap string string) :
  create_dict_loop dag_header ((id :: time :: extra) :: rows) dag_executions =
  create_dict_loop dag_header rows
    (if String.eqb (strip id) "" then dag_executions
     else <[strip id := strip time]> dag_executions).
Proof.
  cbn [create_dict_loop]. rewrite dict_row_two. unfold row_get.
  rewrite lookup_insert_ne by done. by rewrite !lookup_insert_eq.
Qed.

Lemma create_dict_loop_one id rows (dag_executions : gmap string string) :
  create_dict_loop dag_header ([id] :: rows) dag_executions = dag_executions.
Proof.
  cbn [create_dict_loop]. rewrite dict_row_one. unfold row_get.
  rewrite lookup_insert_ne by done. by rewrite !lookup_insert_eq.
Qed.

Lemma create_dict_loop_short before id after
    (dag_executions : gmap string string) :
  create_dict_loop dag_header (before ++ [id] :: after) dag_executions =
  create_dict_loop dag_header before dag_executions.
Proof.
  revert dag_executions. induction before as [|row before IH]; intros m.
  - apply create_dict_loop_one.
  - destruct row as [|id' [|time extra]].
    + apply IH.
    + simpl app. by rewrite !create_dict_loop_one.
    + simpl app. rewrite !create_dict_loop_two. apply IH.
Qed.

Lemma create_dict_loop_app before rows (dag_executions : gmap string string) :
  Forall (λ row, length row ≠ 1) before →
  create_dict_loop dag_header (before ++ rows) dag_executions =
  create_dict_loop dag_header rows
    (create_dict_loop dag_header before dag_executions).
Proof.
  intros Hbefore. revert dag_executions.
  induction Hbefore as [|row before Hrow _ IH]; intros m; [done|].
  destruct row as [|id [|time extra]]; [apply IH|done|].
  simpl app. rewrite !create_dict_loop_two. apply IH.
Qed.

Lemma create_dict_loop_other rows (dag_executions : gmap string string) k :
  (∀ id rest, (id :: rest) ∈ rows → strip id ≠ k) →
  create_dict_loop dag_header rows dag_executions !! k = dag_executions !! k.
Proof.
  revert dag_executions. induction rows as [|row rows IH]; intros m Hk; [done|].
  assert (∀ id rest, id :: rest ∈ rows → strip id ≠ k) as Hrows.
  { intros id rest Hin. apply (Hk id rest). by right. }
  destruct row as [|id [|time extra]].
  - by apply IH.
  - by rewrite create_dict_loop_one.
  - rewrite create_dict_loop_two, IH by done.
    destruct (String.eqb (strip id) ""); [done|].
    apply lookup_insert_ne. apply (Hk id (time :: extra)). left.
Qed.

Lemma create_dict_loop_from_rows rows (dag_executions : gmap string string)
    k v :
  create_dict_loop dag_header rows dag_executions !! k = Some v →
  dag_executions !! k = Some v ∨
  ∃ id time extra,
    (id :: time :: extra) ∈ rows ∧ k = strip id ∧ v = strip time.
Proof.
  revert dag_executions. induction rows as [|row rows IH]; intros m;
    [by left|].
  assert (∀ m', create_dict_loop dag_header rows m' !! k = Some v →
            m' !! k = Some v ∨
            ∃ id time extra,
              (id :: time :: extra) ∈ row :: rows ∧
              k = strip id ∧ v = strip time) as Hlater.
  { intros m' [?|(id & time & extra & ? & ? & ?)]%IH; [by left|right].
    exists id, time, extra. split_and!; [by right|done..]. }
  destruct row as [|id [|time extra]].
  - apply Hlater.
  - rewrite create_dict_loop_one. by left.
  - rewrite create_dict_loop_two.
    intros [Hm|?]%Hlater; [|by right].
    destruct (String.eqb (strip id) ""); [by left|].
    apply lookup_insert_Some in Hm as [[<- <-]|[_ ?]]; [|by left].
    right. exists id, time, extra. split_and!; [left|done..].
Qed.

(** X18.  For a run-time file with the header [dag_id],
    [execution_datetime]: every entry of the dictionary comes from a row of
    two fields or more, whose first two fields, trimmed, are the key and the
    value; and of the rows of a dag the last one wins, when no row of one
    field stands before it. *)
Theorem last_row_of_a_dag_wins (env : Env) (file_path : string)
    (rows : list (list string)) :
  read_csv env file_path = Some (dag_header :: rows) →
  (∀ k v, create_dict_from_csv env file_path !! k = Some v →
     ∃ id time extra,
       (id :: time :: extra) ∈ rows ∧ k = strip id ∧ v = strip time) ∧
  (∀ before id time extra after,
     rows = before ++ (id :: time :: extra) :: after →
     Forall (λ row, length row ≠ 1) before →
     strip id ≠ "" →
     (∀ id' rest, (id' :: rest) ∈ after → strip id' ≠ strip id) →
     create_dict_from_csv env file_path !! strip id = Some (strip time)).
Proof.
  intros Hread. unfold create_dict_from_csv. rewrite Hread. split.
  - by intros k v [?|?]%create_dict_loop_from_rows.
  - intros before id time extra after -> Hbefore Hid Hafter.
    rewrite create_dict_loop_app, create_dict_loop_two by done.
    rewrite create_dict_loop_other by done.
    destruct (String.eqb_spec (strip id) ""); [done|].
    apply lookup_insert_eq.
Qed.

(** X19.  For a run-time file with that header, a row of one field ends
    the reading without an exception: the rows after it are not read, and
    the dictionary is that of the file cut before the row. *)
Theorem short_row_ends_the_reading (env : Env) (file_path cut_path : string)
    (before after : list (list string)) (field : string) :
  read_csv env file_path = Some (dag_header :: before ++ [field] :: after) →
  read_csv env cut_path = Some (dag_header :: before) →
  create_dict_from_csv env file_path = create_dict_from_csv env cut_path.
Proof.
  intros Hfile Hcut. unfold create_dict_from_csv. rewrite Hfile, Hcut.
  apply create_dict_loop_short.
Qed.

Lemma last_row_of_a_dag_wins_witness :
  create_dict_from_csv times_env "times.csv" !! "load" = Some "06:00".
Proof.
  apply (proj2 (last_row_of_a_dag_wins times_env "times.csv"
                  [["load"; " 05:00 "]; ["load"; "06:00"];
                   ["short"]; ["late"; "07:00"]] eq_refl)
           [["load"; " 05:00 "]] "load" "06:00" []
           [["short"]; ["late"; "07:00"]]).
  - reflexivity.
  - repeat constructor. simpl. lia.
  - vm_compute. discriminate.
  - intros id' rest
      [[= -> ->]|[[= -> ->]|[]%not_elem_of_nil]%elem_of_cons]%elem_of_cons;
      vm_compute; discriminate.
Defined.

Lemma short_row_ends_the_reading_witness :
  create_dict_from_csv times_env "times.csv"
    = create_dict_from_csv times_env "cut.csv".
Proof.
  apply (short_row_ends_the_reading times_env "times.csv" "cut.csv"
           [["load"; " 05:00 "]; ["load"; "06:00"]]
           [["late"; "07:00"]] "short"); reflexivity.
Defined.

(** ** The second pass over the report *)

Lemma mapM_Forall {A B} (f : A → option B) (Q : A → Prop)
    (P : A → B → Prop) (l : list A) :
  (∀ x, Q x → ∃ y, f x = Some y ∧ P x y) →
  Forall Q l → ∃ k, mapM f l = Some k ∧ Forall2 P l k.
Proof.
  intros Hf. induction 1 as [|x l Hx _ (k & Hk & HP)].
  - exists []. by split; [|constructor].
  - destruct (Hf x Hx) as (y & Hy & Hxy). exists (y :: k).
    split; [|by constructor]. cbn. by rewrite Hy, Hk.
Qed.

Lemma mapM_None {A B} (f : A → option B) (l : list A) x :
  x ∈ l → f x = None → mapM f l = None.
Proof.
  intros Hx Hf. destruct (mapM f l) as [k|] eqn:Hk; [|done].
  apply mapM_Some in Hk.
  apply list_elem_of_lookup in Hx as [i Hi].
  destruct (Forall2_lookup_l _ _ _ _ _ Hk Hi) as (y & _ & Hy). congruence.
Qed.

(** X20.  The rows [output_csv_to_list] returns are rewritten without an
    index error, one row for one row and in the same order.  A rewritten
    row has seven fields: the table, the relative SQL path, and then five
    empty fields when the row names no script, or else the relative script
    path in the third place and the configuration file in the sixth.  A row
    with fewer than three fields, which the reading never returns, would
    stop the rewriting with an index error. *)
Theorem rewriting_keeps_every_row (env : Env) (time : gmap string string)
    (reader mlist : list (list string)) :
  output_csv_to_list reader = Returns mlist →
  (∃ out,
     overwrite_csv_rows env time mlist = Some out ∧
     Forall2 (λ row new,
                length new = 7 ∧
                head new = head row ∧
                new !! 1 = format_path_to_relative <$> row !! 1 ∧
                (row !! 2 = Some "" → drop 2 new = replicate 5 "") ∧
                (row !! 2 ≠ Some "" →
                 new !! 2 = format_path_to_relative <$> row !! 2 ∧
                 new !! 5 = row !! 3))
       mlist out) ∧
  (∀ rows row, row ∈ rows → (length row < 3)%nat →
     overwrite_csv_rows env time rows = None).
Proof.
  intros Hread. split.
  - apply (mapM_Forall _ (λ row, length row = 4)).
    + intros [|r0 [|r1 [|r2 [|r3 [|? ?]]]]] [=]. cbn [overwrite_row].
      destruct r2 as [|c r2]; cbn [String.length Nat.ltb Nat.leb];
        eexists; (split; [done|]); split_and!; done.
    + destruct reader as [|header rows]; simpl in Hread; [done|].
      injection Hread as <-.
      apply Forall_forall. by intros row [? _]%list_elem_of_filter.
  - intros rows row Hrow Hshort. apply (mapM_None _ _ row); [done|].
    destruct row as [|r0 [|r1 [|r2 ?]]]; simpl in *; [done..|lia].
Qed.

Lemma rewriting_keeps_every_row_witness :
  ∃ out,
    overwrite_csv_rows times_env ∅ [["A.B"; " C:\x\pipeline\a.sql"; ""; ""]]
      = Some out ∧
    Forall2 (λ row new,
               length new = 7 ∧
               head new = head row ∧
               new !! 1 = format_path_to_relative <$> row !! 1 ∧
               (row !! 2 = Some "" → drop 2 new = replicate 5 "") ∧
               (row !! 2 ≠ Some "" →
                new !! 2 = format_path_to_relative <$> row !! 2 ∧
                new !! 5 = row !! 3))
      [["A.B"; " C:\x\pipeline\a.sql"; ""; ""]] out.
Proof.
  apply (proj1 (rewriting_keeps_every_row times_env ∅
                  [["table"; "sql"; "py"; "yaml"];
                   ["A.B"; " C:\x\pipeline\a.sql"; ""; ""]; ["torn"]]
                  [["A.B"; " C:\x\pipeline\a.sql"; ""; ""]] eq_refl)).
Defined.

(** ** The driver *)

(** X21.  With a catalog that exists and holds a header line, the driver
    reaches the join and returns its report: no scanner raises, and the
    lookup of the key [.yaml] finds a list.  Every row of the report has
    four fields and begins with a table name of the catalog, and every
    catalog row of three fields or more has a row in the report. *)
Theorem readable_catalog_gives_report (set_iter : gset string → list string)
    (env : Env) (input_csv_file_path pipeline_file_path : string)
    (header : list string) (rows : list (list string)) :
  (∀ s, set_iter s ≡ₚ elements s) →
  path_exists env input_csv_file_path = true →
  read_csv env input_csv_file_path = Some (header :: rows) →
  ∃ report,
    main set_iter env input_csv_file_path pipeline_file_path
      = Returns report ∧
    (∀ row, row ∈ report →
       length row = 4 ∧
       ∃ name, name ∈ omap table_name_of_row rows ∧ head row = Some name) ∧
    (∀ id schema table rest, (id :: schema :: table :: rest) ∈ rows →
       ∃ row, row ∈ report ∧
              head row = Some (strip schema +:+ "." +:+ strip table)).
Proof.
  intros set_iter_perm Hexists Hread. unfold main.
  unfold get_external_table_names_from_csv. rewrite Hexists, Hread.
  cbn [negb]. rewrite bind_returns, lookup_singleton_eq.
  set (names := omap table_name_of_row rows).
  cbn [call_with_list].
  rewrite find_strings_in_sql_files_eq.
  destruct (list_scanner_lookup env sql_name_ok names pipeline_file_path)
    as (sql_file_paths & -> & _). rewrite bind_returns.
  destruct (find_dict_strings_in_py_files_lookup env sql_file_paths
              pipeline_file_path) as (py_file_paths & -> & _).
  rewrite bind_returns, !find_list_strings_in_py_files_eq.
  destruct (list_scanner_lookup env py_name_ok names pipeline_file_path)
    as (py_file_paths_by_table_name & -> & _). rewrite bind_returns.
  destruct (list_scanner_lookup env py_name_ok [".yaml"] pipeline_file_path)
    as (yaml_files & -> & Hyaml). rewrite bind_returns.
  rewrite Hyaml, decide_True by left. cbn [call_with_list].
  eexists. split; [done|]. rewrite write_to_csv_rows_concat. split.
  - intros row (name & Hname & Hrow)%elem_of_concat_map. split.
    + by apply table_rows_length in Hrow.
    + exists name. split; [done|]. by apply table_rows_head in Hrow.
  - intros id schema table rest Hin.
    set (name := strip schema +:+ "." +:+ strip table).
    assert (name ∈ names) as Hname.
    { apply list_elem_of_omap. by exists (id :: schema :: table :: rest). }
    match goal with
    | |- context [map ?g names] => set (rows_of := g)
    end.
    assert (rows_of name ≠ []) as Hne
      by apply (table_rows_nonempty set_iter set_iter_perm).
    assert (∀ row, row ∈ rows_of name → head row = Some name) as Hhead
      by (intros row; apply table_rows_head).
    destruct (rows_of name) as [|row others] eqn:Hrows; [done|].
    exists row. split; [|apply Hhead; left].
    apply (elem_of_concat_map_2 rows_of names name); [done|].
    rewrite Hrows. left.
Qed.

Lemma readable_catalog_gives_report_witness :
  ∃ report,
    main elements demo_env "tables.csv" "root" = Returns report ∧
    (∀ row, row ∈ report →
       length row = 4 ∧
       ∃ name,
         name ∈ omap table_name_of_row
                  [["1"; " A"; "B "]; ["2"; "C"; "D"; "extra"];
                   ["3"; "short"]] ∧
         head row = Some name) ∧
    (∀ id schema table rest,
       (id :: schema :: table :: rest)
         ∈ [["1"; " A"; "B "]; ["2"; "C"; "D"; "extra"]; ["3"; "short"]] →
       ∃ row, row ∈ report ∧
              head row = Some (strip schema +:+ "." +:+ strip table)).
Proof.
  apply (readable_catalog_gives_report elements demo_env "tables.csv" "root"
           ["id"; "schema"; "table"]); [done|reflexivity|reflexivity].
Defined.

(** X22.  A catalog that exists and holds no line at all stops the driver:
    skipping the header raises [StopIteration], which the loader does not
    catch. *)
Theorem empty_catalog_stops_the_run (set_iter : gset string → list string)
    (env : Env) (input_csv_file_path pipeline_file_path : string) :
  path_exists env input_csv_file_path = true →
  read_csv env input_csv_file_path = Some [] →
  get_external_table_names_from_csv env input_csv_file_path
    = Raises StopIteration ∧
  main set_iter env input_csv_file_path pipeline_file_path
    = Raises StopIteration.
Proof.
  intros Hexists Hread. unfold main, get_external_table_names_from_csv.
  by rewrite Hexists, Hread.
Qed.

Lemma empty_catalog_stops_the_run_witness :
  get_external_table_names_from_csv times_env "empty.csv"
    = Raises StopIteration ∧
  main elements times_env "empty.csv" "root" = Raises StopIteration.
Proof.
  apply (empty_catalog_stops_the_run elements times_env "empty.csv" "root");
    reflexivity.
Defined.
